(** * The staged-pipeline engine of [lsst.pipette.engine.stage]

    A shallow embedding of [stage.py]: the stage classes, the contracts
    ([requires]/[provides]) they derive at construction, and their [run]
    methods, executed over an explicit store of Python objects.

    Python passes the clipboard as [**clipboard]: every call builds a new
    dict for the callee, while the values bound in it (lists in
    particular) stay shared.  The store therefore keeps dict objects and
    list objects apart from the references to them, so that object
    identity and in-place mutation can be stated.

    What the model takes for granted: [assert] statements are executed;
    the keys of a clipboard are strings other than [self], the one name
    a keyword could clash with; the stages of a [MultiStage] are given as
    a list (no factory) and [iterate] is a list of keys; log records are
    not kept.

    Two smaller pieces follow the engine: the item access of the table of
    matched sources in [comparisons.py], over arrays whose numbers stay
    abstract and are indexed as numpy indexes one-dimensional arrays, and
    the file name that the constructor of [Plotter] in [plotter.py]
    settles on. *)

From stdpp Require Import gmap strings list fin_maps fin_sets.

Set Warnings "-register-all,-clear-no-such-hyp".

(** ** Python values and the object store *)

Definition loc := nat.

(** Values a clipboard binds.  Lists are mutable objects and are held by
    reference; the other values are immutable. *)
Inductive value :=
| VNone
| VInt (n : Z)
| VStr (s : string)
| VList (l : loc).

Abbreviation clipboard := (gmap string value).

(** The trace is ghost state: the instrumented engine records the call
    sites of the two loops that drive stages, [stage.run] in
    [MultiStage.run] and the inherited [run] in [IterateStage.run].
    [depth] counts the calls of [run] the loop is nested in. *)
Inductive event :=
| ECall (depth : nat) (stage : string)
| EBody (depth : nat) (index : nat) (view : clipboard).

Record state := State {
  lists : list (list value);
  dicts : list clipboard;
  trace : list event
}.

Inductive message :=
| RequirementsNotMet (stage : string)
| RequirementsNotMetWithin (stage parent : string)
| ProvisionsNotMetWithin (stage parent : string)
| ProvisionsNotMet (stage : string)
| NotIterable (key : string) (array : value)
| DifferentLength (iterate : list string).

(** The exceptions of Python the engine can raise; [UserError] is what the
    code of a user stage raises, and [DanglingReference] the reading of a
    reference that no object of the store answers to, which no Python
    program can hold. *)
Inductive exn :=
| NotImplementedError
| RuntimeError (m : message)
| AssertionError (m : message)
| KeyError (key : string)
| TypeError
| IndexError
| UserError (what : string)
| DanglingReference.

Inductive result (A : Type) :=
| Ok (a : A)
| Raise (e : exn).
Arguments Ok {A} a.
Arguments Raise {A} e.

(** What a [run] method hands back: nothing, a dict, or something that is
    not a mapping. *)
Inductive retval :=
| RNone
| RDict (l : loc)
| ROther (v : value).

(** ** The monad of the engine: state and exceptions *)

Definition M (A : Type) : Type := state → result A * state.

Global Instance M_ret : MRet M := λ A a σ, (Ok a, σ).
Global Instance M_bind : MBind M := λ A B f m σ,
  match m σ with
  | (Ok a, σ') => f a σ'
  | (Raise e, σ') => (Raise e, σ')
  end.

Definition raise {A} (e : exn) : M A := λ σ, (Raise e, σ).

Definition emit (ev : event) : M unit := λ σ,
  (Ok (), State (lists σ) (dicts σ) (trace σ ++ [ev])).

Definition dict_read (l : loc) : M clipboard := λ σ,
  match dicts σ !! l with
  | Some d => (Ok d, σ)
  | None => (Raise DanglingReference, σ)
  end.

Definition dict_alloc (d : clipboard) : M loc := λ σ,
  (Ok (length (dicts σ)), State (lists σ) (dicts σ ++ [d]) (trace σ)).

Definition dict_write (l : loc) (d : clipboard) : M unit := λ σ,
  (Ok (), State (lists σ) (<[l := d]> (dicts σ)) (trace σ)).

(** [len(array)] *)
Definition list_len (l : loc) : M nat := λ σ,
  match lists σ !! l with
  | Some xs => (Ok (length xs), σ)
  | None => (Raise DanglingReference, σ)
  end.

(** [array[index]] *)
Definition list_get (l : loc) (index : nat) : M value := λ σ,
  match lists σ !! l with
  | Some xs =>
      match xs !! index with
      | Some v => (Ok v, σ)
      | None => (Raise IndexError, σ)
      end
  | None => (Raise DanglingReference, σ)
  end.

(** [array[index] = v] *)
Definition list_set (l : loc) (index : nat) (v : value) : M unit := λ σ,
  match lists σ !! l with
  | Some xs =>
      if decide (index < length xs)
      then (Ok (), State (<[l := <[index := v]> xs]> (lists σ)) (dicts σ) (trace σ))
      else (Raise IndexError, σ)
  | None => (Raise DanglingReference, σ)
  end.

(** A call [f] with keyword expansion of [d]: the callee receives a new
    dict holding the bindings of [d]. *)
Definition call_kw {A} (d : loc) (f : loc → M A) : M A :=
  c ← dict_read d; kw ← dict_alloc c; f kw.

(** [d.copy()] *)
Definition dict_copy (d : loc) : M loc :=
  c ← dict_read d; dict_alloc c.

(** [d[key] = v] *)
Definition dict_set (d : loc) (key : string) (v : value) : M unit :=
  c ← dict_read d; dict_write d (<[key := v]> c).

(** [d.update(other)]: the bindings of [other] win. *)
Definition dict_update (d other : loc) : M unit :=
  δ ← dict_read other; c ← dict_read d; dict_write d (δ ∪ c).

(** ** Stage bodies written by users

    A subclass of [BaseStage] overrides [run].  Its code sees the bindings
    of its own keyword dict and every list object; it cannot reach the
    dict of its caller.  It returns nothing, a dict or another value, or
    raises. *)

Inductive breturn :=
| BNone
| BDict (delta : clipboard)
| BOther (v : value).

Inductive outcome :=
| Returns (r : breturn)
| Raises (what : string).

Definition body := clipboard → list (list value) → outcome * list (list value).

Definition user_run (b : body) (clipboard : loc) : M retval :=
  c ← dict_read clipboard;
  out ← (λ σ, let '(o, ls) := b c (lists σ) in
              (Ok o, State ls (dicts σ) (trace σ)));
  match out with
  | Raises what => raise (UserError what)
  | Returns BNone => mret RNone
  | Returns (BDict delta) => r ← dict_alloc delta; mret (RDict r)
  | Returns (BOther v) => mret (ROther v)
  end.

(** ** The stage classes

    A stage object is described by the class it was built from and the
    arguments of its constructor.  [IterateOver iterate base] is an object
    whose class lists [IterateStage] first among its bases: [base] stands
    for the classes that follow [IterateStage] in the method resolution
    order, which supply the constructor that fixes [name], [requires] and
    [provides], and the [run] that [super(IterateStage, self).run]
    reaches. *)

Inductive Stage :=
| BaseStage (name : string) (requires provides : gset string)
| UserStage (name : string) (requires provides : gset string) (b : body)
| IgnoredStage (name : string) (requires provides : gset string)
| MultiStage (name : string) (stages : list Stage) (requires provides : gset string)
| IterateOver (iterate : list string) (base : Stage).

Definition IterateStage (name : string) (iterate : list string)
    (requires provides : gset string) : Stage :=
  IterateOver iterate (BaseStage name requires provides).

Definition IterateMultiStage (name : string) (iterate : list string)
    (stages : list Stage) (requires provides : gset string) : Stage :=
  IterateOver iterate (MultiStage name stages requires provides).

Fixpoint name (self : Stage) : string :=
  match self with
  | BaseStage name _ _ | UserStage name _ _ _ | IgnoredStage name _ _
  | MultiStage name _ _ _ => name
  | IterateOver _ base => name base
  end.

(** *** [MultiStage.__init__]: the derived contract *)

(** [for req in stage.requires: if not (req in requires or req in provides): requires.add(req)] *)
Definition add_requires (requires provides stage_requires : gset string) : gset string :=
  set_fold (λ req requires,
      if decide (req ∈ requires ∨ req ∈ provides) then requires
      else {[req]} ∪ requires)
    requires stage_requires.

(** [for prov in stage.provides: if not prov in provides: provides.add(prov)] *)
Definition add_provides (provides stage_provides : gset string) : gset string :=
  set_fold (λ prov provides,
      if decide (prov ∈ provides) then provides else {[prov]} ∪ provides)
    provides stage_provides.

(** The loop over [self._stages], on the contracts of the children. *)
Fixpoint derive (stages : list (gset string * gset string))
    (requires provides : gset string) : gset string * gset string :=
  match stages with
  | [] => (requires, provides)
  | (stage_requires, stage_provides) :: rest =>
      let requires := add_requires requires provides stage_requires in
      let provides := add_provides provides stage_provides in
      derive rest requires provides
  end.

(** The attributes [self.requires] and [self.provides] once the
    constructor has returned. *)
Fixpoint contract (self : Stage) : gset string * gset string :=
  match self with
  | BaseStage _ requires provides => (requires, provides)
  | UserStage _ requires provides _ => (requires, provides)
  | IgnoredStage _ _ _ => (∅, ∅)
  | MultiStage _ stages own_requires own_provides =>
      let '(requires, provides) := derive (List.map contract stages) ∅ ∅ in
      (requires ∪ own_requires, provides ∪ own_provides)
  | IterateOver _ base => contract base
  end.

Definition requires (self : Stage) : gset string := (contract self).1.
Definition provides (self : Stage) : gset string := (contract self).2.

(** *** [_check], [checkRequire], [checkProvide]

    [self.requires] and [self.provides] are always sets, so the branch
    for [check is None] is never taken.  The keyword dict built for the
    call only lives until the check returns and is not kept in the store;
    log records are not modelled. *)
Definition _check (check : gset string) (clipboard : clipboard) : bool :=
  forallb (λ key, bool_decide (is_Some (clipboard !! key))) (elements check).

Definition checkRequire (self : Stage) (clipboard : loc) : M bool :=
  c ← dict_read clipboard; mret (_check (requires self) c).

Definition checkProvide (self : Stage) (clipboard : loc) : M bool :=
  c ← dict_read clipboard; mret (_check (provides self) c).

(** ** The [run] methods *)

Section methods.
(** How a stage found in [self._stages] is run, one call deeper. *)
Variable run_child : Stage → loc → M retval.
Variable depth : nat.

(** The loop of [MultiStage.run] over [self._stages]. *)
Fixpoint run_stages (self_name : string) (stages : list Stage)
    (clipboard : loc) : M unit :=
  match stages with
  | [] => mret ()
  | stage :: rest =>
      ok ← checkRequire stage clipboard;
      if negb ok
      then raise (AssertionError (RequirementsNotMetWithin (name stage) self_name))
      else
        emit (ECall depth (name stage));;
        ret ← call_kw clipboard (run_child stage);
        match ret with
        | RNone => mret ()
        | RDict r =>
            ok ← checkProvide stage r;
            if negb ok
            then raise (AssertionError (ProvisionsNotMetWithin (name stage) self_name))
            else dict_update clipboard r
        | ROther _ => raise TypeError
        end;;
        run_stages self_name rest clipboard
  end.

(** [MultiStage.run], for an object [self] whose [_stages] are [stages]. *)
Definition MultiStage_run (self : Stage) (stages : list Stage)
    (clipboard : loc) : M retval :=
  ok ← checkRequire self clipboard;
  if negb ok then raise (RuntimeError (RequirementsNotMet (name self)))
  else run_stages (name self) stages clipboard;; mret (RDict clipboard).
End methods.

(** The first loop of [IterateStage.run]: fetch every iterated sequence and
    compare the lengths.  [length] is [None] until the first sequence has
    been seen; [arrays] is the local dict [iterate]. *)
Fixpoint gather (self_iterate names : list string) (clipboard : loc)
    (length : option nat) (arrays : gmap string loc)
    : M (option nat * gmap string loc) :=
  match names with
  | [] => mret (length, arrays)
  | name :: rest =>
      c ← dict_read clipboard;
      match c !! name with
      | None => raise (KeyError name)
      | Some (VList array) =>
          n ← list_len array;
          match length with
          | None => gather self_iterate rest clipboard (Some n) (<[name := array]> arrays)
          | Some len =>
              if decide (n ≠ len)
              then raise (RuntimeError (DifferentLength self_iterate))
              else gather self_iterate rest clipboard length (<[name := array]> arrays)
          end
      | Some v => raise (AssertionError (NotIterable name v))
      end
  end.

(** [for name in self.iterate: clip[name] = iterate[name][index]] *)
Fixpoint rebind (names : list string) (arrays : gmap string loc)
    (index : nat) (clip : loc) : M unit :=
  match names with
  | [] => mret ()
  | name :: rest =>
      match arrays !! name with
      | None => raise (KeyError name)
      | Some array =>
          value ← list_get array index;
          dict_set clip name value;;
          rebind rest arrays index clip
      end
  end.

(** [clip[name]] on what the inherited [run] returned. *)
Definition subscript (clip : retval) (name : string) : M value :=
  match clip with
  | RDict r =>
      c ← dict_read r;
      match c !! name with
      | Some v => mret v
      | None => raise (KeyError name)
      end
  | RNone | ROther _ => raise TypeError
  end.

(** [for name in self.iterate: iterate[name][index] = clip[name]] *)
Fixpoint write_back (names : list string) (arrays : gmap string loc)
    (index : nat) (clip : retval) : M unit :=
  match names with
  | [] => mret ()
  | name :: rest =>
      match arrays !! name with
      | None => raise (KeyError name)
      | Some array =>
          v ← subscript clip name;
          list_set array index v;;
          write_back rest arrays index clip
      end
  end.

Section iterate.
(** The method that [super(IterateStage, self).run] resolves to, run
    one call deeper. *)
Variable super_run : loc → M retval.
Variable depth : nat.

(** One turn of the loop over [range(length)]. *)
Definition iteration (self_iterate : list string) (arrays : gmap string loc)
    (clipboard : loc) (index : nat) : M unit :=
  clip ← dict_copy clipboard;
  rebind self_iterate arrays index clip;;
  view ← dict_read clip;
  emit (EBody depth index view);;
  clip ← call_kw clip super_run;
  write_back self_iterate arrays index clip.

Fixpoint iterations (self_iterate : list string) (arrays : gmap string loc)
    (clipboard : loc) (indices : list nat) : M unit :=
  match indices with
  | [] => mret ()
  | index :: rest =>
      iteration self_iterate arrays clipboard index;;
      iterations self_iterate arrays clipboard rest
  end.

(** [IterateStage.run]; [range(None)] is a [TypeError]. *)
Definition IterateStage_run (self : Stage) (self_iterate : list string)
    (clipboard : loc) : M retval :=
  ok ← checkRequire self clipboard;
  if negb ok then raise (AssertionError (RequirementsNotMet (name self)))
  else
    '(length, arrays) ← gather self_iterate self_iterate clipboard None ∅;
    match length with
    | None => raise TypeError
    | Some length =>
        iterations self_iterate arrays clipboard (seq 0 length);;
        ok ← checkProvide self clipboard;
        if negb ok then raise (AssertionError (ProvisionsNotMet (name self)))
        else mret (RDict clipboard)
    end.
End iterate.

(** Method dispatch on the class of [self].  [clipboard] is the keyword
    dict the call has built. *)
Fixpoint run (depth : nat) (self : Stage) (clipboard : loc) : M retval :=
  match self with
  | BaseStage _ _ _ => raise NotImplementedError
  | UserStage _ _ _ b => user_run b clipboard
  | IgnoredStage _ _ _ => mret RNone
  | MultiStage _ stages _ _ =>
      MultiStage_run (run (S depth)) depth self stages clipboard
  | IterateOver iterate base =>
      IterateStage_run (run (S depth) base) depth self iterate clipboard
  end.

(** A driver holding a dict [clipboard] calls [stage.run] with keyword
    expansion of it. *)
Definition call_run (self : Stage) (clipboard : loc) : M retval :=
  call_kw clipboard (run 0 self).

(** ** The contract derived by [MultiStage.__init__] *)

(** The keys the children up to (not including) position [j] provide. *)
Definition provided_before (stages : list Stage) (j : nat) : gset string :=
  ⋃ (provides <$> take j stages).

(** The requires of a composite in closed form: a requirement of child [j]
    surfaces unless a child before [j] provides it. *)
Definition surfaced_requires (stages : list Stage) (own : gset string)
    : gset string :=
  own ∪ ⋃ (imap (λ j stage, requires stage ∖ provided_before stages j) stages).

(** The requires of a composite as the specification words them: a
    requirement of child [j] is left out when an earlier child or child
    [j] itself provides it. *)
Definition claimed_requires (stages : list Stage) (own : gset string)
    : gset string :=
  own ∪ ⋃ (imap (λ j stage, requires stage ∖ provided_before stages (S j)) stages).

(** ** Reasoning about runs *)

Definition depth_of (e : event) : nat :=
  match e with
  | ECall depth _ | EBody depth _ _ => depth
  end.

(** The events of a trace recorded at one depth. *)
Definition at_depth (depth : nat) (t : list event) : list event :=
  filter (λ e, depth_of e = depth) t.

(** [extends_from depth kw n σ σ']: between [σ] and [σ'] only events at
    [depth] or deeper were recorded, dicts were only allocated, and of the
    dicts below [n] none but [kw] was written. *)
Record extends_from (depth : nat) (kw : loc) (n : nat) (σ σ' : state) : Prop :=
  Extends {
    extends_trace :
      ∃ t, trace σ' = trace σ ++ t ∧ Forall (λ e, depth ≤ depth_of e) t;
    extends_length : length (dicts σ) ≤ length (dicts σ');
    extends_dicts :
      ∀ l, l < n → l ≠ kw → dicts σ' !! l = dicts σ !! l
  }.

(** [frames depth kw n m post]: run from a state with at least [n] dicts,
    [m] records events at [depth] or deeper only, writes none of the first
    [n] dicts but [kw], and a value it returns satisfies [post]. *)
Definition frames {A} (depth : nat) (kw : loc) (n : nat) (m : M A)
    (post : A → Prop) : Prop :=
  ∀ σ, n ≤ length (dicts σ) →
    extends_from depth kw n σ (m σ).2 ∧ ∀ a, (m σ).1 = Ok a → post a.

(** A dict a call returns is its keyword dict or one allocated since. *)
Definition returns_own (kw : loc) (n : nat) (r : retval) : Prop :=
  ∀ l, r = RDict l → l = kw ∨ n ≤ l.

(** ** [MultiStage.run] as the specification words it *)

(** The working clipboard after a child handed back [delta]: the keys of
    the delta overwrite those of the clipboard; no delta, no change. *)
Definition merge (c : clipboard) (delta : option clipboard) : clipboard :=
  match delta with
  | Some δ => δ ∪ c
  | None => c
  end.

(** [child_returns I depth stage c delta]: called at [depth] with a
    keyword dict that holds [c], in a store whose lists satisfy [I], the
    stage returns the dict [delta] ([None]: it returns nothing) and leaves
    lists that satisfy [I]. *)
Definition child_returns (I : list (list value) → Prop) (depth : nat)
    (stage : Stage) (c : clipboard) (delta : option clipboard) : Prop :=
  ∀ σ kw, I (lists σ) → dicts σ !! kw = Some c →
    ∃ ret σ', run depth stage kw σ = (Ok ret, σ') ∧ I (lists σ') ∧
      match delta with
      | None => ret = RNone
      | Some δ => ∃ r, ret = RDict r ∧ dicts σ' !! r = Some δ
      end.

(** Every child returns its delta when called on the clipboard its
    predecessors have left. *)
Fixpoint children_return (I : list (list value) → Prop) (depth : nat)
    (stages : list Stage) (deltas : list (option clipboard))
    (c : clipboard) : Prop :=
  match stages, deltas with
  | [], [] => True
  | stage :: stages, delta :: deltas =>
      child_returns I depth stage c delta ∧
      children_return I depth stages deltas (merge c delta)
  | _, _ => False
  end.

(** Steps 2 and 3 of the specified [run]: for each child in declared
    order, assert its requirements on the current clipboard, take its
    delta, assert the provisions on a delta that is not null and merge
    it; return the merged clipboard. *)
Fixpoint spec_stages (parent : string) (stages : list Stage)
    (deltas : list (option clipboard)) (c : clipboard) : result clipboard :=
  match stages, deltas with
  | stage :: stages, delta :: deltas =>
      if negb (_check (requires stage) c)
      then Raise (AssertionError (RequirementsNotMetWithin (name stage) parent))
      else
        match delta with
        | None => spec_stages parent stages deltas c
        | Some δ =>
            if negb (_check (provides stage) δ)
            then Raise (AssertionError (ProvisionsNotMetWithin (name stage) parent))
            else spec_stages parent stages deltas (δ ∪ c)
        end
  | _, _ => Ok c
  end.

(** Step 1 comes first: fail when the composite's own requirements are
    not met by the incoming clipboard. *)
Definition spec_MultiStage_run (self : Stage) (stages : list Stage)
    (deltas : list (option clipboard)) (c : clipboard) : result clipboard :=
  if negb (_check (requires self) c)
  then Raise (RuntimeError (RequirementsNotMet (name self)))
  else spec_stages (name self) stages deltas c.

(** The result of [run] that corresponds to a specified clipboard: the
    keyword dict [kw] of the call, which holds it. *)
Definition as_retval (kw : loc) (r : result clipboard) : result retval :=
  match r with
  | Ok _ => Ok (RDict kw)
  | Raise e => Raise e
  end.

(** ** Examples

    A pipeline of three steps, the second one disabled; the third
    overwrites the key the first has provided. *)
Section examples.
Local Open Scope string_scope.

Definition detect : Stage :=
  UserStage "detect" {["exposure"]} {["sources"]}
    (λ _ ls, (Returns (BDict {["sources" := VInt 7]}), ls)).

Definition calibrate : Stage := IgnoredStage "calibrate" ∅ ∅.

Definition measure : Stage :=
  UserStage "measure" {["sources"]} {["sources"]}
    (λ _ ls, (Returns (BDict {["sources" := VInt 8]}), ls)).

Definition pipeline_stages : list Stage := [detect; calibrate; measure].

Definition pipeline : Stage := MultiStage "pipeline" pipeline_stages ∅ ∅.

Definition exposure_only : clipboard := {["exposure" := VInt 1]}.

Definition pipeline_deltas : list (option clipboard) :=
  [Some {["sources" := VInt 7]}; None; Some {["sources" := VInt 8]}].

(** A store that holds one dict, the clipboard of the driver. *)
Definition driver_store (c : clipboard) : state := State [] [c] [].

End examples.

(** ** Soundness of the derived contract *)

(** The keys a sequence of children needs from outside: what the first
    child requires, and what the others need that the first does not
    provide. *)
Fixpoint needs (stages : list Stage) : gset string :=
  match stages with
  | [] => ∅
  | stage :: rest => requires stage ∪ (needs rest ∖ provides stage)
  end.

(** [delivers I depth stage]: whenever its requirements are met, the
    stage returns, and what it returns is a dict, or nothing when the
    stage provides nothing. *)
Definition delivers (I : list (list value) → Prop) (depth : nat)
    (stage : Stage) : Prop :=
  ∀ σ kw c, I (lists σ) → dicts σ !! kw = Some c → requires stage ⊆ dom c →
    ∃ ret σ', run depth stage kw σ = (Ok ret, σ') ∧ I (lists σ') ∧
      match ret with
      | RNone => provides stage = ∅
      | RDict r => is_Some (dicts σ' !! r)
      | ROther _ => False
      end.

(** A child that declares a key it never hands over: it works in place
    and returns nothing. *)
Section examples_soundness.
Local Open Scope string_scope.

Definition silent_provider : Stage :=
  UserStage "detect" ∅ {["sources"]} (λ _ ls, (Returns BNone, ls)).

Definition consumer : Stage :=
  UserStage "measure" {["sources"]} ∅ (λ c ls, (Returns (BDict c), ls)).

Definition unsound_pipeline : Stage :=
  MultiStage "pipeline" [silent_provider; consumer] ∅ ∅.

Definition consumer_starved : exn :=
  AssertionError (RequirementsNotMetWithin "measure" "pipeline").

End examples_soundness.

(** The outcomes of the loop over the children that do not fail a
    requirement: the loop ends, or a child has handed back a delta that
    lacks a key it provides. *)
Definition soundly (parent : string) (stages : list Stage)
    (r : result unit) : Prop :=
  r = Ok () ∨ ∃ stage, stage ∈ stages ∧
    r = Raise (AssertionError (ProvisionsNotMetWithin (name stage) parent)).

(** ** Iterated sequences *)

(** The list object an iterated key is bound to. *)
Definition array_of (c : clipboard) (key : string) : option loc :=
  match c !! key with
  | Some (VList l) => Some l
  | _ => None
  end.

(** The elements of the sequence bound to [key]. *)
Definition sequence (σ : state) (c : clipboard) (key : string)
    : option (list value) :=
  l ← array_of c key; lists σ !! l.

(** The local dict [iterate] of [IterateStage.run] once every key of
    [names] has been entered. *)
Definition arrays_of (c : clipboard) (names : list string)
    (arrays : gmap string loc) : gmap string loc :=
  foldl (λ arrays key,
           match array_of c key with
           | Some l => <[key := l]> arrays
           | None => arrays
           end) arrays names.

(** Stores for the iteration examples: one dict, the clipboard, binding
    the keys [A] and [B] to two list objects. *)
Section examples_iterate.
Local Open Scope string_scope.

Definition key_A : string := "A".
Definition key_B : string := "B".

Definition two_sequences : clipboard := {[ "A" := VList 0; "B" := VList 1 ]}.

Definition store_3_4 : state :=
  State [[VInt 1; VInt 2; VInt 3]; [VInt 1; VInt 2; VInt 3; VInt 4]]
        [two_sequences] [].

Definition store_0_0 : state := State [[]; []] [two_sequences] [].

(** A body that hands its keyword dict back. *)
Definition echo : Stage :=
  UserStage "echo" {["A"; "B"]} ∅ (λ c ls, (Returns (BDict c), ls)).

Definition iterate_echo : Stage := IterateOver ["A"; "B"] echo.

End examples_iterate.

(** The clipboard [view] with every key of [names] for which [elt] has an
    element rebound to that element. *)
Definition rebound (elt : string → option value) (view : clipboard)
    (names : list string) : clipboard :=
  foldl (λ view key,
           match elt key with
           | Some v => <[key := v]> view
           | None => view
           end) view names.

(** The scalar view at [index]: the clipboard [c] with every iterated key
    rebound to the element of its sequence at [index], the sequences
    taken in the store [σ]. *)
Definition view_at (σ : state) (c : clipboard) (iterate : list string)
    (index : nat) : clipboard :=
  rebound (λ key, xs ← sequence σ c key; xs !! index) c iterate.

(** [body_writes I depth base iterate c view wrote]: called on a keyword
    dict that holds [view], in a store whose lists satisfy [I], the [run]
    of [base] returns a dict that binds every iterated key [key] to
    [wrote key]; it leaves the iterated list objects as they are and
    lists that satisfy [I]. *)
Definition body_writes (I : list (list value) → Prop) (depth : nat)
    (base : Stage) (iterate : list string) (c view : clipboard)
    (wrote : string → value) : Prop :=
  ∀ σ kw, I (lists σ) → dicts σ !! kw = Some view →
    ∃ r δ σ', run depth base kw σ = (Ok (RDict r), σ') ∧ I (lists σ') ∧
      dicts σ' !! r = Some δ ∧
      (∀ key, key ∈ iterate → δ !! key = Some (wrote key)) ∧
      (∀ key l, key ∈ iterate → array_of c key = Some l →
         lists σ' !! l = lists σ !! l).

(** [I] does not depend on the elements of the iterated lists. *)
Definition ignores_elements (I : list (list value) → Prop)
    (iterate : list string) (c : clipboard) : Prop :=
  ∀ ls key l xs index v, I ls → key ∈ iterate → array_of c key = Some l →
    ls !! l = Some xs → I (<[l := <[index := v]> xs]> ls).

(** Distinct iterated keys are bound to distinct list objects. *)
Definition unaliased (iterate : list string) (c : clipboard) : Prop :=
  ∀ key1 key2, key1 ∈ iterate → key2 ∈ iterate →
    array_of c key1 = array_of c key2 → key1 = key2.

(** The state of the loop of [IterateStage.run] before the turn for
    [index], started in [σ0]: the indices below [index] hold what the body
    wrote, the others what they held in [σ0]. *)
Definition turned (I : list (list value) → Prop) (depth : nat) (kw : loc)
    (c : clipboard) (iterate : list string) (wrote : nat → string → value)
    (σ0 : state) (index : nat) (σ : state) : Prop :=
  dicts σ !! kw = Some c ∧ I (lists σ) ∧
  (∀ key, key ∈ iterate →
     ∃ l xs, array_of c key = Some l ∧ lists σ0 !! l = Some xs ∧
       lists σ !! l = Some (((λ j, wrote j key) <$> seq 0 index) ++ drop index xs)) ∧
  ∃ t, trace σ = trace σ0 ++ t ∧
    at_depth depth t = (λ j, EBody depth j (view_at σ0 c iterate j)) <$> seq 0 index.

(** Stores and bodies for the write-back examples. *)
Section examples_write_back.
Local Open Scope string_scope.
Local Open Scope Z_scope.

Definition store_3_3 : state :=
  State [[VInt 1; VInt 2; VInt 3]; [VInt 4; VInt 5; VInt 6]]
        [two_sequences] [].

Definition bump_value (v : value) : value :=
  match v with
  | VInt n => VInt (n + 10)
  | _ => v
  end.

(** A body that adds ten to every number of its view. *)
Definition bump : Stage :=
  UserStage "bump" {["A"; "B"]} ∅
    (λ view ls, (Returns (BDict (bump_value <$> view)), ls)).

Definition iterate_bump : Stage := IterateOver ["A"; "B"] bump.

Definition bumped (index : nat) (key : string) : value :=
  if decide (key = "A") then VInt (Z.of_nat index + 11)
  else VInt (Z.of_nat index + 14).

(** Two keys bound to one list object, and a body that writes a
    different value for each key. *)
Definition aliased : clipboard := {[ "A" := VList 0%nat; "B" := VList 0%nat ]}.

Definition aliased_store : state :=
  State [[VInt 1; VInt 2; VInt 3]] [aliased] [].

Definition ten_twenty : clipboard := {[ "A" := VInt 10; "B" := VInt 20 ]}.

Definition return_ten_twenty : body :=
  λ _ ls, (Returns (BDict ten_twenty), ls).

Definition split_keys : Stage :=
  UserStage "split" {["A"; "B"]} ∅ return_ten_twenty.

Definition iterate_split : Stage := IterateOver ["A"; "B"] split_keys.

End examples_write_back.

(** [body_comes_short I depth base iterate c view]: called on a keyword
    dict that holds [view], the [run] of [base] returns and leaves the
    iterated lists as they are, but what it returns is nothing, or no
    mapping, or a dict that lacks an iterated key. *)
Definition body_comes_short (I : list (list value) → Prop) (depth : nat)
    (base : Stage) (iterate : list string) (c view : clipboard) : Prop :=
  ∀ σ kw, I (lists σ) → dicts σ !! kw = Some view →
    ∃ ret σ', run depth base kw σ = (Ok ret, σ') ∧
      (∀ key l, key ∈ iterate → array_of c key = Some l →
         lists σ' !! l = lists σ !! l) ∧
      match ret with
      | RNone | ROther _ => True
      | RDict r =>
          ∃ δ, dicts σ' !! r = Some δ ∧ ∃ key, key ∈ iterate ∧ δ !! key = None
      end.

(** The errors of the write-back step: [clip[name]] on something that is
    not a mapping, or on a dict that lacks [name]. *)
Definition write_back_error (iterate : list string) (e : exn) : Prop :=
  e = TypeError ∨ ∃ key, key ∈ iterate ∧ e = KeyError key.

(** An iterating stage whose inherited [run] is that of [IgnoredStage]. *)
Section examples_short.
Local Open Scope string_scope.

Definition iterate_ignored : Stage :=
  IterateOver ["A"; "B"] (IgnoredStage "calibrate" ∅ ∅).

End examples_short.

(** ** The order of the calls *)

(** A call site with the clipboard left out: a turn of the loop of
    [IterateStage.run], or the call of a child by [MultiStage.run]. *)
Inductive step :=
| Turn (index : nat)
| Call (stage : string).

Definition step_of (e : event) : step :=
  match e with
  | ECall _ stage => Call stage
  | EBody _ index _ => Turn index
  end.

(** The events of a trace recorded at [depth] or above it. *)
Definition upto_depth (depth : nat) (t : list event) : list event :=
  filter (λ e, depth_of e ≤ depth) t.

(** Index by index, every child in declared order. *)
Definition interleaved (stages : list Stage) (L : nat) : list step :=
  index ← seq 0 L; Turn index :: ((λ stage, Call (name stage)) <$> stages).

Definition is_ok {A} (r : result A) : Prop :=
  match r with
  | Ok _ => True
  | Raise _ => False
  end.

(** [traced depth expected m]: the steps that [m] records down to [depth]
    are the first of [expected], and all of them when [m] returns. *)
Definition traced {A} (depth : nat) (expected : list step) (m : M A) : Prop :=
  ∀ σ, ∃ t, trace (m σ).2 = trace σ ++ t ∧
    step_of <$> upto_depth depth t `prefix_of` expected ∧
    (is_ok (m σ).1 → step_of <$> upto_depth depth t = expected).

(** Two stages run on every element of one sequence of length two. *)
Section examples_interleave.
Local Open Scope string_scope.

Definition one_sequence : clipboard := {[ "A" := VList 0 ]}.

Definition store_2 : state := State [[VInt 1; VInt 2]] [one_sequence] [].

Definition stage_S1 : Stage :=
  UserStage "S1" {["A"]} ∅ (λ c ls, (Returns (BDict c), ls)).

Definition stage_S2 : Stage :=
  UserStage "S2" {["A"]} ∅ (λ c ls, (Returns (BDict c), ls)).

Definition per_element : Stage :=
  IterateMultiStage "per_element" ["A"] [stage_S1; stage_S2] ∅ ∅.

Definition S1_S2_twice : list step :=
  [Turn 0; Call "S1"; Call "S2"; Turn 1; Call "S1"; Call "S2"].

End examples_interleave.

(** ** What a run leaves of its own clipboard *)

(** [keeps kw P m post]: while the dict [kw] holds bindings that satisfy
    [P], running [m] leaves it holding bindings that satisfy [P], and a
    value [m] returns satisfies [post]. *)
Definition keeps {A} (kw : loc) (P : clipboard → Prop) (m : M A)
    (post : A → Prop) : Prop :=
  ∀ σ, (∃ c, dicts σ !! kw = Some c ∧ P c) →
    (∃ c, dicts (m σ).2 !! kw = Some c ∧ P c) ∧
    ∀ a, (m σ).1 = Ok a → post a.

(** ** Stages that honour their contract *)

(** [honours I depth stage]: whenever its requirements are met, the stage
    returns; what it returns is a dict with every key it provides, or
    nothing when it provides nothing. *)
Definition honours (I : list (list value) → Prop) (depth : nat)
    (stage : Stage) : Prop :=
  ∀ σ kw c, I (lists σ) → dicts σ !! kw = Some c → requires stage ⊆ dom c →
    ∃ ret σ', run depth stage kw σ = (Ok ret, σ') ∧ I (lists σ') ∧
      match ret with
      | RNone => provides stage = ∅
      | RDict r => ∃ δ, dicts σ' !! r = Some δ ∧ provides stage ⊆ dom δ
      | ROther _ => False
      end.

(** ** Failures *)

(** [child_raises I depth stage c e]: called on a keyword dict that holds
    [c], in a store whose lists satisfy [I], the stage raises [e]. *)
Definition child_raises (I : list (list value) → Prop) (depth : nat)
    (stage : Stage) (c : clipboard) (e : exn) : Prop :=
  ∀ σ kw, I (lists σ) → dicts σ !! kw = Some c →
    ∃ σ', run depth stage kw σ = (Raise e, σ').

(** What stops the first loop of [IterateStage.run] at [key]: the key is
    missing, or it is bound to something that is not a list. *)
Definition fetch_error (c : clipboard) (key : string) : option exn :=
  match c !! key with
  | None => Some (KeyError key)
  | Some (VList _) => None
  | Some v => Some (AssertionError (NotIterable key v))
  end.

(** ** Constructor arguments that are one key or several

    [BaseStage.__init__] accepts [None], one key as a string, or a
    collection of keys for [requires] and [provides], and makes a set of
    it.  [IterateStage.__init__] stores [iterate] as it is given, and
    [run] loops over it with [for name in self.iterate]: over a string
    the loop visits the characters.  (Should the sequences differ in
    length, the report shows the names the loop has visited.) *)

Inductive keys_arg :=
| NoKeys
| OneKey (key : string)
| Keys (keys : list string).

(** [set(requires)] after a lone string has been wrapped in a list. *)
Definition as_set (arg : keys_arg) : gset string :=
  match arg with
  | NoKeys => ∅
  | OneKey key => {[key]}
  | Keys keys => list_to_set keys
  end.

(** The characters of a string, each a string of its own. *)
Fixpoint characters (s : string) : list string :=
  match s with
  | EmptyString => []
  | String a rest => String a EmptyString :: characters rest
  end.

(** What [for name in self.iterate] visits.  [None] cannot be iterated:
    the loop raises the [TypeError] that the empty list of names leads
    to in [range(length)]. *)
Definition names_in (iterate : keys_arg) : list string :=
  match iterate with
  | NoKeys => []
  | OneKey key => characters key
  | Keys keys => keys
  end.

(** The object built by
    [IterateStage(name, iterate, requires=..., provides=...)]. *)
Definition IterateStage_init (name : string) (iterate requires provides : keys_arg)
    : Stage :=
  IterateStage name (names_in iterate) (as_set requires) (as_set provides).

(** Stages and clipboards for the failure cases. *)
Section examples_failures.
Local Open Scope string_scope.

(** A child that fails. *)
Definition measure_fails : Stage :=
  UserStage "measure" {["sources"]} ∅ (λ _ ls, (Raises "no flux", ls)).

(** A body that fails on the element 2 of the sequence A and hands its
    keyword dict back on any other. *)
Definition picky : Stage :=
  UserStage "picky" {["A"; "B"]} ∅
    (λ view ls,
       match view !! "A" with
       | Some (VInt 2) => (Raises "two", ls)
       | _ => (Returns (BDict view), ls)
       end).



(** A sequence under a key of two characters. *)
Definition whole_key : clipboard := {[ "AB" := VList 0 ]}.

Definition store_whole_key : state := State [[VInt 1]] [whole_key] [].

(** A child that adds a key to every element's clipboard. *)
Definition stage_flux : Stage :=
  UserStage "flux" {["A"]} {["flux"]}
    (λ c ls, (Returns (BDict (<["flux" := VInt 1]> c)), ls)).

End examples_failures.

(** * The table of matched sources: [Comparisons]

    After construction a [Comparisons] object holds one array for each
    name in [self.keys].  What [__getitem__] does with them does not
    depend on the numbers in the arrays, which stay abstract here. *)

Section comparisons.
Local Open Scope string_scope.

(** [self.keys], as the constructor sets it. *)
Definition keys : list string :=
  ["distance"; "ra"; "dec"; "ra1"; "ra2"; "dec1"; "dec2";
   "x1"; "y1"; "x2"; "y2";
   "psfDiff"; "psfAvg"; "psf1"; "psf2";
   "apDiff"; "apAvg"; "ap1"; "ap2";
   "flags"; "index"].

End comparisons.

(** What can be put between the brackets: a string, an [int], or
    anything else. *)
Inductive item_key :=
| KStr (s : string)
| KInt (i : Z)
| KOther.

Inductive item_error :=
| Unrecognised (key : item_key)
| OutOfBounds
| AttributeError (attribute : string).

(** [array[i]] on a one-dimensional array: a negative index counts from
    the end; [None] stands for the [IndexError]. *)
Definition array_index {X} (array : list X) (i : Z) : option X :=
  if decide (0 ≤ i)%Z then array !! Z.to_nat i
  else if decide (- Z.of_nat (length array) ≤ i)%Z
       then array !! Z.to_nat (Z.of_nat (length array) + i)
       else None.

(** What [__getitem__] returns: an array, or a dict with one number for
    each key. *)
Inductive item (X : Type) :=
| Array (array : list X)
| Values (values : gmap string X).
Arguments Array {X} array.
Arguments Values {X} values.

(** [getattr(self, key)] for the attributes that hold arrays. *)
Definition column {X} (self : gmap string (list X)) (key : string)
    : item_error + list X :=
  match self !! key with
  | Some array => inr array
  | None => inl (AttributeError key)
  end.

(** [for k in self.keys: value = self[k]; values[k] = value[key]] *)
Fixpoint row {X} (self : gmap string (list X)) (ks : list string) (i : Z)
    (values : gmap string X) : item_error + gmap string X :=
  match ks with
  | [] => inr values
  | k :: rest =>
      match column self k with
      | inl e => inl e
      | inr value =>
          match array_index value i with
          | None => inl OutOfBounds
          | Some x => row self rest i (<[k := x]> values)
          end
      end
  end.

Definition __getitem__ {X} (self : gmap string (list X)) (key : item_key)
    : item_error + item X :=
  match key with
  | KStr s =>
      if decide (s ∈ keys) then
        match column self s with
        | inl e => inl e
        | inr array => inr (Array array)
        end
      else inl (Unrecognised key)
  | KInt i =>
      match row self keys i ∅ with
      | inl e => inl e
      | inr values => inr (Values values)
      end
  | KOther => inl (Unrecognised key)
  end.

(** What the constructor leaves: an array for every key, all of one
    length (they are compressed under one mask). *)
Definition tabular {X} (self : gmap string (list X)) (n : nat) : Prop :=
  ∀ k, k ∈ keys → ∃ array, self !! k = Some array ∧ length array = n.

(** * The name of the file a [Plotter] writes *)

(** [s.endswith(suffix)] *)
Definition endswith (s suffix : string) : bool :=
  (String.length suffix <=? String.length s)
  && String.eqb
       (String.substring (String.length s - String.length suffix)
          (String.length suffix) s)
       suffix.

(** [self.name] once [Plotter.__init__] has looked at it. *)
Definition Plotter_name (name : string) : string :=
  if negb (endswith name ".pdf") then String.append name ".pdf" else name.

(** A table of two rows. *)
Definition two_rows : gmap string (list Z) :=
  gset_to_gmap [10; 20]%Z (list_to_set keys).

(** * Properties of the engine *)

Lemma add_requires_eq (requires provides stage_requires : gset string) :
  add_requires requires provides stage_requires
  = requires ∪ (stage_requires ∖ provides).
Proof.
  unfold add_requires.
  apply (set_fold_ind_L (λ acc X, acc = requires ∪ (X ∖ provides))).
  - set_solver.
  - intros req X acc Hfresh ->. case_decide; set_solver.
Qed.

Lemma add_provides_eq (provides stage_provides : gset string) :
  add_provides provides stage_provides = provides ∪ stage_provides.
Proof.
  unfold add_provides.
  apply (set_fold_ind_L (λ acc X, acc = provides ∪ X)).
  - set_solver.
  - intros prov X acc Hfresh ->. case_decide; set_solver.
Qed.

Lemma derive_eq (stages : list Stage) (rq pv : gset string) :
  derive (List.map contract stages) rq pv
  = (rq ∪ ⋃ (imap (λ j stage,
                requires stage ∖ (pv ∪ provided_before stages j)) stages),
     pv ∪ ⋃ (provides <$> stages)).
Proof.
  revert rq pv. induction stages as [|stage rest IH]; intros rq pv.
  - simpl. f_equal; set_solver.
  - cbn [List.map derive]. destruct (contract stage) as [sr sp] eqn:Hc.
    rewrite IH, add_requires_eq, add_provides_eq.
    assert (requires stage = sr) as Hr by (unfold requires; by rewrite Hc).
    assert (provides stage = sp) as Hp by (unfold provides; by rewrite Hc).
    cbn [imap fmap list_fmap union_list foldr]. fold (fmap provides rest).
    rewrite Hr, Hp. f_equal; [|set_solver].
    unfold provided_before at 2. cbn [take fmap list_fmap union_list foldr].
    assert (imap ((λ j stage0, requires stage0 ∖ (pv ∪ provided_before (stage :: rest) j)) ∘ S) rest
            = imap (λ j stage0, requires stage0 ∖ (pv ∪ sp ∪ provided_before rest j)) rest)
      as ->.
    { apply imap_ext. intros j s _. unfold provided_before. simpl.
      fold (fmap provides (take j rest)). rewrite Hp. set_solver. }
    set_solver.
Qed.

(** ** C1: the contract of a composite *)

(** C1 (as amended).  The derived requires of a [MultiStage] are its own
    explicit requires together with every requirement of a child that no
    child strictly before it provides; a key a child both requires and
    provides still surfaces.  The derived provides are the own explicit
    provides together with the provides of every child. *)
Theorem MultiStage_contract (name : string) (stages : list Stage)
    (own_requires own_provides : gset string) :
  requires (MultiStage name stages own_requires own_provides)
    = surfaced_requires stages own_requires
  ∧ provides (MultiStage name stages own_requires own_provides)
    = own_provides ∪ ⋃ (provides <$> stages).
Proof.
  unfold requires, provides, surfaced_requires. cbn [contract].
  rewrite derive_eq. cbn [fst snd]. split; [|set_solver].
  assert (imap (λ j stage, requires stage ∖ (∅ ∪ provided_before stages j)) stages
          = imap (λ j stage, requires stage ∖ provided_before stages j) stages)
    as ->.
  { apply imap_ext. intros j s _. set_solver. }
  set_solver.
Qed.

Section contract_example.
Local Open Scope string_scope.

(** C1 fails as the specification words it: a single child that requires
    and provides the key [exposure] makes the composite require
    [exposure], while the claimed rule leaves it out. *)
Lemma MultiStage_contract_same_child :
  let stage := UserStage "isr" {["exposure"]} {["exposure"]}
                 (λ c ls, (Returns (BDict c), ls)) in
  requires (MultiStage "pipeline" [stage] ∅ ∅)
  ≠ claimed_requires [stage] ∅.
Proof.
  intros stage Heq. apply (f_equal elements) in Heq.
  vm_compute in Heq. discriminate Heq.
Qed.

End contract_example.

(** ** Structural induction over stage trees *)

Lemma Stage_tree_ind (P : Stage → Prop) :
  (∀ name rq pv, P (BaseStage name rq pv)) →
  (∀ name rq pv b, P (UserStage name rq pv b)) →
  (∀ name rq pv, P (IgnoredStage name rq pv)) →
  (∀ name stages rq pv, Forall P stages → P (MultiStage name stages rq pv)) →
  (∀ iterate base, P base → P (IterateOver iterate base)) →
  ∀ self, P self.
Proof.
  intros HB HU HI HM HO.
  fix IH 1. intros [name rq pv|name rq pv b|name rq pv|name stages rq pv|iterate base].
  - apply HB.
  - apply HU.
  - apply HI.
  - apply HM. induction stages as [|stage rest IHrest]; constructor.
    + apply IH.
    + apply IHrest.
  - apply HO, IH.
Qed.

(** ** Rules of the program logic *)

Lemma bind_unfold {A B} (m : M A) (f : A → M B) (σ : state) :
  (m ≫= f) σ = match m σ with
               | (Ok a, σ') => f a σ'
               | (Raise e, σ') => (Raise e, σ')
               end.
Proof. reflexivity. Qed.

Lemma bind_Ok {A B} (m : M A) (f : A → M B) (σ σ' : state) (a : A) :
  m σ = (Ok a, σ') → (m ≫= f) σ = f a σ'.
Proof. intros H. rewrite bind_unfold, H. reflexivity. Qed.

Lemma bind_Raise {A B} (m : M A) (f : A → M B) (σ σ' : state) (e : exn) :
  m σ = (Raise e, σ') → (m ≫= f) σ = (Raise e, σ').
Proof. intros H. rewrite bind_unfold, H. reflexivity. Qed.

(** ** Frame: what a run can do to the dicts and the trace *)

Lemma extends_from_refl depth kw n σ : extends_from depth kw n σ σ.
Proof.
  split; [|done|done]. exists []. by rewrite app_nil_r.
Qed.

Lemma extends_from_trans depth kw n σ1 σ2 σ3 :
  extends_from depth kw n σ1 σ2 → extends_from depth kw n σ2 σ3 →
  extends_from depth kw n σ1 σ3.
Proof.
  intros [(t1 & Ht1 & Hd1) Hl1 Hk1] [(t2 & Ht2 & Hd2) Hl2 Hk2]. split.
  - exists (t1 ++ t2). split.
    + by rewrite Ht2, Ht1, app_assoc.
    + by apply Forall_app.
  - lia.
  - intros l Hl Hne. by rewrite Hk2, Hk1.
Qed.

(** A call one level deeper, or at the same level, on a keyword dict that
    is not among the first [n] dicts, is invisible below [n]. *)
Lemma extends_from_callee depth depth' kw kw' n n' σ σ' :
  depth ≤ depth' → n ≤ kw' → n ≤ n' →
  extends_from depth' kw' n' σ σ' → extends_from depth kw n σ σ'.
Proof.
  intros Hd Hkw Hn [(t & Ht & Hdt) Hl Hk]. split.
  - exists t. split; [done|]. eapply Forall_impl; [done|]. simpl. lia.
  - done.
  - intros l Hl' _. apply Hk; lia.
Qed.

Lemma extends_from_lists depth kw n σ ls :
  extends_from depth kw n σ (State ls (dicts σ) (trace σ)).
Proof.
  split; simpl; [|done|done]. exists []. by rewrite app_nil_r.
Qed.

Lemma extends_from_emit depth kw n σ ev :
  depth ≤ depth_of ev →
  extends_from depth kw n σ (State (lists σ) (dicts σ) (trace σ ++ [ev])).
Proof.
  intros Hd. split; simpl; [|done|done]. exists [ev]. split; [done|].
  by constructor.
Qed.

Lemma extends_from_alloc depth kw n σ c :
  n ≤ length (dicts σ) →
  extends_from depth kw n σ (State (lists σ) (dicts σ ++ [c]) (trace σ)).
Proof.
  intros Hn. split; simpl.
  - exists []. by rewrite app_nil_r.
  - rewrite length_app. lia.
  - intros l Hl Hne. apply lookup_app_l. lia.
Qed.

Lemma extends_from_write depth kw n σ l c :
  l = kw ∨ n ≤ l →
  extends_from depth kw n σ (State (lists σ) (<[l := c]> (dicts σ)) (trace σ)).
Proof.
  intros Hown. split; simpl.
  - exists []. by rewrite app_nil_r.
  - by rewrite length_insert.
  - intros l' Hl' Hne. apply list_lookup_insert_ne. lia.
Qed.

Section frames.
Context (depth : nat) (kw : loc) (n : nat).

Lemma frames_ret {A} (a : A) (post : A → Prop) :
  post a → frames depth kw n (mret a) post.
Proof.
  intros Ha σ _. split; [apply extends_from_refl|]. by intros ? [= <-].
Qed.

Lemma frames_raise {A} (e : exn) (post : A → Prop) :
  frames depth kw n (raise e) post.
Proof. intros σ _. split; [apply extends_from_refl|]. by intros ? [=]. Qed.

Lemma frames_bind {A B} (m : M A) (f : A → M B) (mid : A → Prop)
    (post : B → Prop) :
  frames depth kw n m mid →
  (∀ a, mid a → frames depth kw n (f a) post) →
  frames depth kw n (m ≫= f) post.
Proof.
  intros Hm Hf σ Hn. destruct (Hm σ Hn) as [Hext Hmid].
  rewrite bind_unfold. destruct (m σ) as [[a|e] σ']; cbn [fst snd] in *.
  - destruct (Hf a (Hmid a eq_refl) σ') as [Hext' Hpost].
    { destruct Hext. lia. }
    split; [by eapply extends_from_trans|done].
  - split; [done|]. by intros ? [=].
Qed.

Lemma frames_seq {A B} (m : M A) (f : A → M B) (post : B → Prop) :
  frames depth kw n m (λ _, True) →
  (∀ a, frames depth kw n (f a) post) →
  frames depth kw n (m ≫= f) post.
Proof. intros Hm Hf. eapply frames_bind; [done|]. intros a _. apply Hf. Qed.

Lemma frames_mono {A} (m : M A) (post post' : A → Prop) :
  frames depth kw n m post' → (∀ a, post' a → post a) →
  frames depth kw n m post.
Proof. intros Hm Hpost σ Hn. destruct (Hm σ Hn). split; auto. Qed.

Lemma frames_read l : frames depth kw n (dict_read l) (λ _, True).
Proof.
  intros σ _. unfold dict_read. destruct (dicts σ !! l); cbn;
    (split; [apply extends_from_refl|done]).
Qed.

Lemma frames_alloc c : frames depth kw n (dict_alloc c) (λ l, n ≤ l).
Proof.
  intros σ Hn. split; [by apply extends_from_alloc|].
  cbn. by intros ? [= <-].
Qed.

Lemma frames_write l c :
  l = kw ∨ n ≤ l → frames depth kw n (dict_write l c) (λ _, True).
Proof. intros Hl σ _. split; [by apply extends_from_write|done]. Qed.

Lemma frames_emit ev :
  depth ≤ depth_of ev → frames depth kw n (emit ev) (λ _, True).
Proof. intros Hd σ _. split; [by apply extends_from_emit|done]. Qed.

Lemma frames_list_len l : frames depth kw n (list_len l) (λ _, True).
Proof.
  intros σ _. unfold list_len. destruct (lists σ !! l); cbn;
    (split; [apply extends_from_refl|done]).
Qed.

Lemma frames_list_get l i : frames depth kw n (list_get l i) (λ _, True).
Proof.
  intros σ _. unfold list_get. destruct (lists σ !! l) as [xs|]; cbn;
    [destruct (xs !! i); cbn|]; (split; [apply extends_from_refl|done]).
Qed.

Lemma frames_list_set l i v : frames depth kw n (list_set l i v) (λ _, True).
Proof.
  intros σ _. unfold list_set. destruct (lists σ !! l) as [xs|]; cbn.
  - case_decide; cbn.
    + split; [|done]. split; cbn; [|done|done]. exists []. by rewrite app_nil_r.
    + split; [apply extends_from_refl|done].
  - split; [apply extends_from_refl|done].
Qed.

Lemma frames_callee {A} depth' kw' (m : M A) (post : A → Prop) :
  depth ≤ depth' → n ≤ kw' →
  frames depth' kw' n m post → frames depth kw n m post.
Proof.
  intros Hd Hkw Hm σ Hn. destruct (Hm σ Hn) as [Hext Hpost].
  split; [|done]. by apply (extends_from_callee depth depth' kw kw' n n).
Qed.

Lemma frames_check (which : Stage → gset string) self l :
  frames depth kw n (c ← dict_read l; mret (_check (which self) c)) (λ _, True).
Proof.
  eapply frames_bind; [apply frames_read|]. intros c _. by apply frames_ret.
Qed.
End frames.

Lemma frames_call_kw {A} depth kw n d (f : loc → M A) (post : A → Prop) :
  (∀ kw', n ≤ kw' → frames depth kw n (f kw') post) →
  frames depth kw n (call_kw d f) post.
Proof.
  intros Hf. unfold call_kw.
  eapply frames_bind; [apply frames_read|]. intros c _.
  eapply frames_bind; [apply frames_alloc|]. intros kw' Hkw'. by apply Hf.
Qed.

Lemma frames_run_stages depth kw n name stages l :
  l = kw ∨ n ≤ l →
  Forall (λ s, ∀ d kw n, frames d kw n (run d s kw) (returns_own kw n)) stages →
  frames depth kw n (run_stages (run (S depth)) depth name stages l) (λ _, True).
Proof.
  intros Hl. induction 1 as [|stage rest Hstage Hrest IH]; cbn [run_stages].
  - by apply frames_ret.
  - eapply frames_bind; [apply (frames_check _ _ _ requires)|]. intros ok _.
    destruct ok; cbn [negb]; [|apply frames_raise].
    eapply frames_bind; [by apply frames_emit|]. intros ? _.
    eapply frames_bind.
    { apply (frames_call_kw _ _ _ _ _ (λ _, True)). intros kw' Hkw'.
      eapply (frames_callee _ _ _ (S depth) kw'); [lia|done|].
      eapply frames_mono; [apply Hstage|done]. }
    intros ret _.
    apply frames_seq; [|intros ?; apply IH].
    destruct ret as [|r|v]; [by apply frames_ret| |apply frames_raise].
    eapply frames_bind; [apply (frames_check _ _ _ provides)|]. intros ok _.
    destruct ok; cbn [negb]; [|apply frames_raise].
    unfold dict_update.
    eapply frames_bind; [apply frames_read|]. intros δ _.
    eapply frames_bind; [apply frames_read|]. intros c _.
    by apply frames_write.
Qed.

Lemma frames_gather depth kw n iterate names l length arrays :
  frames depth kw n (gather iterate names l length arrays) (λ _, True).
Proof.
  revert length arrays. induction names as [|name rest IH]; intros length arrays;
    cbn [gather].
  - by apply frames_ret.
  - eapply frames_bind; [apply frames_read|]. intros c _.
    destruct (c !! name) as [[| | |array]|]; try apply frames_raise.
    eapply frames_bind; [apply frames_list_len|]. intros len _.
    destruct length; [case_decide; [apply frames_raise|]|]; apply IH.
Qed.

Lemma frames_rebind depth kw n names arrays index clip :
  clip = kw ∨ n ≤ clip →
  frames depth kw n (rebind names arrays index clip) (λ _, True).
Proof.
  intros Hclip. induction names as [|name rest IH]; cbn [rebind].
  - by apply frames_ret.
  - destruct (arrays !! name); [|apply frames_raise].
    eapply frames_bind; [apply frames_list_get|]. intros v _.
    eapply frames_bind; [|intros ? _; apply IH].
    unfold dict_set. eapply frames_bind; [apply frames_read|]. intros c _.
    by apply frames_write.
Qed.

Lemma frames_subscript depth kw n clip name :
  frames depth kw n (subscript clip name) (λ _, True).
Proof.
  destruct clip; cbn [subscript]; try apply frames_raise.
  eapply frames_bind; [apply frames_read|]. intros c _.
  destruct (c !! name); [by apply frames_ret|apply frames_raise].
Qed.

Lemma frames_write_back depth kw n names arrays index clip :
  frames depth kw n (write_back names arrays index clip) (λ _, True).
Proof.
  induction names as [|name rest IH]; cbn [write_back].
  - by apply frames_ret.
  - destruct (arrays !! name); [|apply frames_raise].
    eapply frames_bind; [apply frames_subscript|]. intros v _.
    eapply frames_bind; [apply frames_list_set|]. intros ? _. apply IH.
Qed.

Lemma frames_iterations depth kw n (super_run : loc → M retval) iterate arrays
    l indices :
  (∀ kw n, frames (S depth) kw n (super_run kw) (returns_own kw n)) →
  frames depth kw n (iterations super_run depth iterate arrays l indices)
    (λ _, True).
Proof.
  intros Hsuper. induction indices as [|index rest IH]; cbn [iterations].
  - by apply frames_ret.
  - eapply frames_bind; [|intros ? _; apply IH]. unfold iteration, dict_copy.
    eapply frames_bind.
    { eapply frames_bind; [apply frames_read|]. intros c _. apply frames_alloc. }
    intros clip Hclip. cbn beta in Hclip.
    eapply frames_bind; [apply frames_rebind; by right|]. intros ? _.
    eapply frames_bind; [apply frames_read|]. intros view _.
    eapply frames_bind; [by apply frames_emit|]. intros ? _.
    eapply frames_bind; [|intros r _; apply frames_write_back].
    apply (frames_call_kw _ _ _ _ _ (λ _, True)). intros kw' Hkw'.
    eapply (frames_callee _ _ _ (S depth) kw'); [lia|done|].
    eapply frames_mono; [apply Hsuper|done].
Qed.

Lemma frames_run self :
  ∀ depth kw n, frames depth kw n (run depth self kw) (returns_own kw n).
Proof.
  induction self as [name rq pv|name rq pv b|name rq pv|name stages rq pv IH|iterate base IH]
    using Stage_tree_ind; intros depth kw n; cbn [run].
  - apply frames_raise.
  - unfold user_run. eapply frames_bind; [apply frames_read|]. intros c _.
    eapply frames_bind with (mid := λ _, True).
    { intros σ _. destruct (b c (lists σ)) as [o ls]. cbn.
      split; [apply extends_from_lists|done]. }
    intros [[|delta|v]|what] _; try (by apply frames_ret); [|apply frames_raise].
    eapply frames_bind; [apply frames_alloc|]. intros r Hr.
    apply frames_ret. intros l [= <-]. by right.
  - by apply frames_ret.
  - unfold MultiStage_run.
    eapply frames_bind; [apply (frames_check _ _ _ requires)|]. intros ok _.
    destruct ok; cbn [negb]; [|apply frames_raise].
    eapply frames_bind; [apply frames_run_stages; [by left|done]|]. intros ? _.
    apply frames_ret. intros l [= <-]. by left.
  - unfold IterateStage_run.
    eapply frames_bind; [apply (frames_check _ _ _ requires)|]. intros ok _.
    destruct ok; cbn [negb]; [|apply frames_raise].
    eapply frames_bind; [apply frames_gather|]. intros [[length|] arrays] _;
      [|apply frames_raise].
    eapply frames_bind; [apply frames_iterations; intros; apply IH|]. intros ? _.
    eapply frames_bind; [apply (frames_check _ _ _ provides)|]. intros ok _.
    destruct ok; cbn [negb]; [apply frames_ret|apply frames_raise].
    intros l [= <-]. by left.
Qed.

(** ** Equations for the primitives *)

Lemma bind_ret {A B} (a : A) (f : A → M B) σ : (mret a ≫= f) σ = f a σ.
Proof. reflexivity. Qed.

Lemma dict_read_Some l c σ :
  dicts σ !! l = Some c → dict_read l σ = (Ok c, σ).
Proof. unfold dict_read. by intros ->. Qed.

Lemma checkRequire_Some self l c σ :
  dicts σ !! l = Some c →
  checkRequire self l σ = (Ok (_check (requires self) c), σ).
Proof.
  intros H. unfold checkRequire. by rewrite (bind_Ok _ _ _ _ _ (dict_read_Some _ _ _ H)).
Qed.

Lemma checkProvide_Some self l c σ :
  dicts σ !! l = Some c →
  checkProvide self l σ = (Ok (_check (provides self) c), σ).
Proof.
  intros H. unfold checkProvide. by rewrite (bind_Ok _ _ _ _ _ (dict_read_Some _ _ _ H)).
Qed.

Lemma call_kw_Some {A} d c (f : loc → M A) σ :
  dicts σ !! d = Some c →
  call_kw d f σ
  = f (length (dicts σ)) (State (lists σ) (dicts σ ++ [c]) (trace σ)).
Proof.
  intros H. unfold call_kw.
  rewrite (bind_Ok _ _ _ _ _ (dict_read_Some _ _ _ H)). reflexivity.
Qed.

Lemma dict_update_Some d other δ c σ :
  dicts σ !! other = Some δ → dicts σ !! d = Some c →
  dict_update d other σ
  = (Ok (), State (lists σ) (<[d := δ ∪ c]> (dicts σ)) (trace σ)).
Proof.
  intros Ho Hd. unfold dict_update.
  rewrite (bind_Ok _ _ _ _ _ (dict_read_Some _ _ _ Ho)).
  rewrite (bind_Ok _ _ _ _ _ (dict_read_Some _ _ _ Hd)). reflexivity.
Qed.

Lemma _check_spec check (c : clipboard) :
  _check check c = true ↔ check ⊆ dom c.
Proof.
  unfold _check. rewrite forallb_forall. split.
  - intros H k Hk. apply elem_of_dom.
    specialize (H k). rewrite <- list_elem_of_In, elem_of_elements in H.
    specialize (H Hk). by apply bool_decide_eq_true in H.
  - intros H k Hk. rewrite <- list_elem_of_In, elem_of_elements in Hk.
    apply bool_decide_eq_true. apply elem_of_dom, H, Hk.
Qed.

(** What a callee leaves of the caller's view of the store. *)
Lemma run_callee depth self kw σ ret σ' :
  run depth self kw σ = (ret, σ') →
  length (dicts σ) ≤ length (dicts σ') ∧
  (∀ l, l < length (dicts σ) → l ≠ kw → dicts σ' !! l = dicts σ !! l) ∧
  (∃ t, trace σ' = trace σ ++ t ∧ Forall (λ e, depth ≤ depth_of e) t) ∧
  (∀ l, ret = Ok (RDict l) → l = kw ∨ length (dicts σ) ≤ l).
Proof.
  intros Hrun.
  destruct (frames_run self depth kw (length (dicts σ)) σ) as [[Ht Hl Hd] Hr]; [done|].
  rewrite Hrun in *. cbn [fst snd] in *. split_and!; try done.
  intros l ->. by apply (Hr _ eq_refl).
Qed.

Lemma at_depth_deeper depth t :
  Forall (λ e, S depth ≤ depth_of e) t → at_depth depth t = [].
Proof.
  unfold at_depth. induction 1 as [|e t He _ IH]; [done|].
  rewrite filter_cons_False; [done|]. lia.
Qed.

Lemma at_depth_app depth t1 t2 :
  at_depth depth (t1 ++ t2) = at_depth depth t1 ++ at_depth depth t2.
Proof. apply filter_app. Qed.

Lemma run_stages_spec I depth parent stages : ∀ deltas kw σ c,
  dicts σ !! kw = Some c → I (lists σ) →
  children_return I (S depth) stages deltas c →
  ∃ σ', run_stages (run (S depth)) depth parent stages kw σ
          = (match spec_stages parent stages deltas c with
             | Ok _ => Ok () | Raise e => Raise e end, σ') ∧
    I (lists σ') ∧ length (dicts σ) ≤ length (dicts σ') ∧
    (∀ l, l < length (dicts σ) → l ≠ kw → dicts σ' !! l = dicts σ !! l) ∧
    (∃ t, trace σ' = trace σ ++ t ∧ Forall (λ e, depth ≤ depth_of e) t ∧
       ∀ c', spec_stages parent stages deltas c = Ok c' →
         at_depth depth t = (λ stage, ECall depth (name stage)) <$> stages) ∧
    ∀ c', spec_stages parent stages deltas c = Ok c' →
      dicts σ' !! kw = Some c' ∧ c' = foldl merge c deltas.
Proof.
  induction stages as [|stage rest IH]; intros [|delta deltas] kw σ c Hkw HI Hch;
    try done.
  - exists σ. cbn. split_and!; try done.
    + exists []. rewrite app_nil_r. done.
    + by intros c' [= <-].
  - destruct Hch as [Hchild Hrest]. cbn [run_stages spec_stages].
    rewrite (bind_Ok _ _ _ _ _ (checkRequire_Some _ _ _ _ Hkw)).
    destruct (_check (requires stage) c) eqn:Hreq; cbn [negb].
    2:{ exists σ. split_and!; try done. exists []. rewrite app_nil_r. done. }
    rewrite bind_unfold. unfold emit at 1. cbn iota beta.
    set (σ1 := State (lists σ) (dicts σ) (trace σ ++ [ECall depth (name stage)])).
    assert (dicts σ1 !! kw = Some c) as Hkw1 by done.
    rewrite bind_unfold, (call_kw_Some _ _ _ _ Hkw1).
    set (σ2 := State (lists σ1) (dicts σ1 ++ [c]) (trace σ1)).
    destruct (Hchild σ2 (length (dicts σ1))) as (ret & σ3 & Hrun & HI3 & Hret).
    { done. } { cbn. by rewrite lookup_app_r, Nat.sub_diag. }
    rewrite Hrun. cbn iota beta.
    destruct (run_callee _ _ _ _ _ _ Hrun) as (Hlen & Hframe & (t3 & Ht3 & Hdeep) & _).
    assert (kw < length (dicts σ)) as Hkwlt by (by eapply lookup_lt_Some).
    assert (length (dicts σ2) = S (length (dicts σ))) as Hlen2.
    { cbn. rewrite length_app. cbn. lia. }
    assert (dicts σ3 !! kw = Some c) as Hkw3.
    { rewrite Hframe; [|lia|cbn; lia]. cbn. by rewrite lookup_app_l. }
    destruct delta as [δ|]; cbn [merge] in Hrest.
    + destruct Hret as (r & -> & Hr).
      rewrite bind_unfold, (bind_Ok _ _ _ _ _ (checkProvide_Some _ _ _ _ Hr)).
      destruct (_check (provides stage) δ) eqn:Hprov; cbn [negb].
      2:{ cbn. exists σ3. split_and!; try done.
          - lia.
          - intros l Hl Hne. rewrite Hframe; [|lia|cbn; lia].
            cbn. by rewrite lookup_app_l.
          - exists ([ECall depth (name stage)] ++ t3). split_and!; try done.
            + rewrite Ht3. cbn. by rewrite <- app_assoc.
            + apply Forall_app. split; [by repeat constructor|].
              eapply Forall_impl; [done|]. cbn. lia. }
      rewrite (dict_update_Some _ _ _ _ _ Hr Hkw3). cbn iota beta.
      set (σ4 := State (lists σ3) (<[kw := δ ∪ c]> (dicts σ3)) (trace σ3)).
      destruct (IH deltas kw σ4 (δ ∪ c)) as (σ' & Hrun' & HI' & Hlen' & Hframe' & (t' & Ht' & Hd' & Hcalls) & Hfinal).
      { cbn. apply list_lookup_insert_eq. lia. } { done. } { done. }
      exists σ'. rewrite Hrun'. split_and!; try done.
      * cbn in Hlen'. rewrite length_insert in Hlen'. lia.
      * intros l Hl Hne. rewrite Hframe'; [|cbn; rewrite length_insert; lia|done].
        cbn. rewrite list_lookup_insert_ne by done.
        rewrite Hframe; [|lia|cbn; lia]. cbn. by rewrite lookup_app_l.
      * exists ([ECall depth (name stage)] ++ t3 ++ t'). split_and!.
        -- rewrite Ht'. cbn [trace σ4]. rewrite Ht3. cbn. by rewrite <- !app_assoc.
        -- apply Forall_app. split; [by repeat constructor|].
           apply Forall_app. split; [|done].
           eapply Forall_impl; [done|]. cbn. lia.
        -- intros c' Hc'. rewrite !at_depth_app, (at_depth_deeper _ _ Hdeep).
           rewrite (Hcalls _ Hc'). unfold at_depth.
           rewrite filter_cons_True by done. done.
    + subst ret. cbn iota beta. rewrite bind_ret.
      destruct (IH deltas kw σ3 c) as (σ' & Hrun' & HI' & Hlen' & Hframe' & (t' & Ht' & Hd' & Hcalls) & Hfinal); try done.
      exists σ'. rewrite Hrun'. split_and!; try done.
      * lia.
      * intros l Hl Hne. rewrite Hframe'; [|lia|done].
        rewrite Hframe; [|lia|cbn; lia]. cbn. by rewrite lookup_app_l.
      * exists ([ECall depth (name stage)] ++ t3 ++ t'). split_and!.
        -- rewrite Ht', Ht3. cbn. by rewrite <- !app_assoc.
        -- apply Forall_app. split; [by repeat constructor|].
           apply Forall_app. split; [|done].
           eapply Forall_impl; [done|]. cbn. lia.
        -- intros c' Hc'. rewrite !at_depth_app, (at_depth_deeper _ _ Hdeep).
           rewrite (Hcalls _ Hc'). unfold at_depth.
           rewrite filter_cons_True by done. done.
Qed.

(** ** C3: [MultiStage.run]

    C3.  [MultiStage.run] raises [RuntimeError] and does nothing else when
    its own [checkRequire] fails on the incoming clipboard.  Otherwise it
    runs the children in declared order; it asserts [checkProvide] on
    every delta that is not null and merges it, the keys of the delta
    overwriting those present; it returns its clipboard, which holds the
    incoming bindings with all deltas merged in child order. *)
Theorem MultiStage_run_refines (I : list (list value) → Prop) (depth : nat)
    (self_name : string) (stages : list Stage) (own_requires own_provides : gset string)
    (deltas : list (option clipboard)) (kw : loc) (σ : state) (c : clipboard) :
  let self := MultiStage self_name stages own_requires own_provides in
  dicts σ !! kw = Some c → I (lists σ) →
  children_return I (S depth) stages deltas c →
  ∃ σ' t,
    run depth self kw σ
      = (as_retval kw (spec_MultiStage_run self stages deltas c), σ') ∧
    trace σ' = trace σ ++ t ∧
    (_check (requires self) c = false → σ' = σ) ∧
    ∀ c', spec_MultiStage_run self stages deltas c = Ok c' →
      dicts σ' !! kw = Some c' ∧ c' = foldl merge c deltas ∧
      at_depth depth t = (λ stage, ECall depth (name stage)) <$> stages.
Proof.
  intros self Hkw HI Hch. unfold self at 1. cbn [run]. unfold MultiStage_run.
  fold self. rewrite (bind_Ok _ _ _ _ _ (checkRequire_Some _ _ _ _ Hkw)).
  unfold spec_MultiStage_run.
  destruct (_check (requires self) c) eqn:Hreq; cbn [negb].
  - destruct (run_stages_spec I depth self_name stages deltas kw σ c Hkw HI Hch)
      as (σ' & Hrun & _ & _ & _ & (t & Ht & _ & Hcalls) & Hfinal).
    exists σ', t. change (name self) with self_name. rewrite bind_unfold, Hrun.
    destruct (spec_stages self_name stages deltas c) as [c'|e] eqn:Hspec.
    + split_and!; try done. intros c'' [= <-].
      destruct (Hfinal c' eq_refl) as [? ?]. split_and!; try done. by eapply Hcalls.
    + split_and!; done.
  - exists σ, []. rewrite app_nil_r. split_and!; done.
Qed.

(** Stages whose behaviour is known: user code that always returns the
    same delta, and ignored stages. *)
Lemma UserStage_returns I depth stage_name rq pv (b : body) c δ :
  (∀ ls, I ls → ∃ ls', b c ls = (Returns (BDict δ), ls') ∧ I ls') →
  child_returns I depth (UserStage stage_name rq pv b) c (Some δ).
Proof.
  intros Hb σ kw HI Hkw. destruct (Hb _ HI) as (ls' & Hbody & HI').
  exists (RDict (length (dicts σ))),
    (State ls' (dicts σ ++ [δ]) (trace σ)).
  split_and!; [|done|].
  - cbn [run]. unfold user_run.
    rewrite (bind_Ok _ _ _ _ _ (dict_read_Some _ _ _ Hkw)).
    rewrite bind_unfold, Hbody. reflexivity.
  - eexists. split; [done|]. cbn. by rewrite lookup_app_r, Nat.sub_diag.
Qed.

Lemma IgnoredStage_returns I depth stage_name rq pv c :
  child_returns I depth (IgnoredStage stage_name rq pv) c None.
Proof. intros σ kw HI Hkw. by exists RNone, σ. Qed.

Lemma MultiStage_run_refines_pipeline :
  ∃ σ' t,
    run 0 pipeline 0 (driver_store exposure_only)
      = (as_retval 0 (spec_MultiStage_run pipeline pipeline_stages
                        pipeline_deltas exposure_only), σ') ∧
    trace σ' = trace (driver_store exposure_only) ++ t ∧
    (_check (requires pipeline) exposure_only = false
       → σ' = driver_store exposure_only) ∧
    ∀ c', spec_MultiStage_run pipeline pipeline_stages pipeline_deltas
            exposure_only = Ok c' →
      dicts σ' !! 0 = Some c' ∧ c' = foldl merge exposure_only pipeline_deltas ∧
      at_depth 0 t = (λ stage, ECall 0 (name stage)) <$> pipeline_stages.
Proof.
  apply (MultiStage_run_refines (λ _, True)).
  - reflexivity.
  - exact Logic.I.
  - cbn [children_return pipeline_stages pipeline_deltas].
    split_and!; [| | |exact Logic.I].
    + apply UserStage_returns. intros ls _. by exists ls.
    + apply IgnoredStage_returns.
    + apply UserStage_returns. intros ls _. by exists ls.
Defined.

(** ** C7: [IgnoredStage] *)

(** C7 (as amended).  [IgnoredStage.run] never raises, changes nothing and
    returns nothing, that is [None] and not the clipboard; the requires
    and the provides of an [IgnoredStage] are empty whatever was passed to
    its constructor. *)
Theorem IgnoredStage_run (depth : nat) (stage_name : string)
    (rq pv : gset string) (kw : loc) (σ : state) :
  run depth (IgnoredStage stage_name rq pv) kw σ = (Ok RNone, σ) ∧
  requires (IgnoredStage stage_name rq pv) = ∅ ∧
  provides (IgnoredStage stage_name rq pv) = ∅.
Proof. done. Qed.

(** C7 fails as the specification words it: called on a clipboard, an
    ignored stage returns no dict at all. *)
Lemma IgnoredStage_run_returns_no_clipboard :
  ¬ ∃ r, (call_run calibrate 0 (driver_store exposure_only)).1 = Ok (RDict r).
Proof. intros [r Hr]. vm_compute in Hr. discriminate Hr. Qed.

Lemma derive_needs (stages : list Stage) (rq pv : gset string) :
  (derive (List.map contract stages) rq pv).1 = rq ∪ (needs stages ∖ pv).
Proof.
  revert rq pv. induction stages as [|stage rest IH]; intros rq pv.
  - cbn. set_solver.
  - cbn [List.map derive needs]. destruct (contract stage) as [sr sp] eqn:Hc.
    rewrite IH, add_requires_eq, add_provides_eq.
    unfold requires, provides. rewrite Hc. cbn [fst snd].
    apply set_eq. intros k. rewrite !elem_of_union, !elem_of_difference, !elem_of_union, !elem_of_difference.
    destruct (decide (k ∈ pv)), (decide (k ∈ sp)); naive_solver.
Qed.

Lemma requires_MultiStage_needs self_name stages rq pv :
  requires (MultiStage self_name stages rq pv) = needs stages ∪ rq.
Proof.
  unfold requires at 1. cbn [contract].
  pose proof (derive_needs stages ∅ ∅) as H.
  destruct (derive (List.map contract stages) ∅ ∅) as [r p]. cbn [fst] in *.
  rewrite H. set_solver.
Qed.

Lemma run_stages_sound I depth parent stages : ∀ kw σ c,
  Forall (delivers I (S depth)) stages →
  dicts σ !! kw = Some c → I (lists σ) → needs stages ⊆ dom c →
  ∃ r σ', run_stages (run (S depth)) depth parent stages kw σ = (r, σ') ∧
    soundly parent stages r.
Proof.
  induction stages as [|stage rest IH]; intros kw σ c Hall Hkw HI Hneeds.
  - exists (Ok ()), σ. split; [done|by left].
  - apply Forall_cons in Hall as [Hstage Hrest]. cbn [needs] in Hneeds.
    cbn [run_stages].
    rewrite (bind_Ok _ _ _ _ _ (checkRequire_Some _ _ _ _ Hkw)).
    assert (_check (requires stage) c = true) as -> by (apply _check_spec; set_solver).
    cbn [negb]. rewrite bind_unfold. unfold emit at 1. cbn iota beta.
    set (σ1 := State (lists σ) (dicts σ) (trace σ ++ [ECall depth (name stage)])).
    assert (dicts σ1 !! kw = Some c) as Hkw1 by done.
    rewrite bind_unfold, (call_kw_Some _ _ _ _ Hkw1).
    set (σ2 := State (lists σ1) (dicts σ1 ++ [c]) (trace σ1)).
    destruct (Hstage σ2 (length (dicts σ1)) c) as (ret & σ3 & Hrun & HI3 & Hret).
    { done. } { cbn. by rewrite lookup_app_r, Nat.sub_diag. }
    { clear -Hneeds. set_solver. }
    rewrite Hrun. cbn iota beta.
    destruct (run_callee _ _ _ _ _ _ Hrun) as (Hlen & Hframe & _ & _).
    assert (kw < length (dicts σ)) as Hkwlt by (by eapply lookup_lt_Some).
    assert (length (dicts σ2) = S (length (dicts σ))) as Hlen2.
    { cbn. rewrite length_app. cbn. lia. }
    assert (dicts σ3 !! kw = Some c) as Hkw3.
    { rewrite Hframe; [|lia|cbn; lia]. cbn. by rewrite lookup_app_l. }
    destruct ret as [|r|v]; [| |done].
    + rewrite bind_ret.
      destruct (IH kw σ3 c) as (r' & σ' & Hrun' & Hs); try done.
      { rewrite Hret in Hneeds. clear -Hneeds. set_solver. }
      exists r', σ'. split; [done|]. destruct Hs as [->|(s & Hs & ->)]; [by left|].
      right. exists s. split; [by right|done].
    + destruct Hret as [δ Hr].
      rewrite bind_unfold, (bind_Ok _ _ _ _ _ (checkProvide_Some _ _ _ _ Hr)).
      destruct (_check (provides stage) δ) eqn:Hprov; cbn [negb].
      2:{ eexists _, _. split; [done|]. right. exists stage. split; [by left|done]. }
      rewrite (dict_update_Some _ _ _ _ _ Hr Hkw3). cbn iota beta.
      apply _check_spec in Hprov.
      destruct (IH kw (State (lists σ3) (<[kw := δ ∪ c]> (dicts σ3)) (trace σ3)) (δ ∪ c))
        as (r' & σ' & Hrun' & Hs); try done.
      { cbn. apply list_lookup_insert_eq. lia. }
      { rewrite dom_union_L. clear -Hneeds Hprov. intros k Hk.
        destruct (decide (k ∈ provides stage)); set_solver. }
      exists r', σ'. split; [done|]. destruct Hs as [->|(s & Hs & ->)]; [by left|].
      right. exists s. split; [by right|done].
Qed.

Lemma UserStage_delivers I depth stage_name rq pv (b : body) :
  (∀ c ls, I ls → rq ⊆ dom c →
     ∃ δ ls', b c ls = (Returns (BDict δ), ls') ∧ I ls') →
  delivers I depth (UserStage stage_name rq pv b).
Proof.
  intros Hb σ kw c HI Hkw Hreq. destruct (Hb c _ HI Hreq) as (δ & ls' & Hbody & HI').
  exists (RDict (length (dicts σ))), (State ls' (dicts σ ++ [δ]) (trace σ)).
  split_and!; [|done|].
  - cbn [run]. unfold user_run.
    rewrite (bind_Ok _ _ _ _ _ (dict_read_Some _ _ _ Hkw)).
    rewrite bind_unfold, Hbody. reflexivity.
  - exists δ. cbn. by rewrite lookup_app_r, Nat.sub_diag.
Qed.

Lemma IgnoredStage_delivers I depth stage_name rq pv :
  delivers I depth (IgnoredStage stage_name rq pv).
Proof. intros σ kw c HI Hkw Hreq. by exists RNone, σ. Qed.

(** ** C2: the derived requires suffice

    C2 (as amended).  Let every child of a [MultiStage] deliver: run on
    a clipboard that meets its requirements it returns a dict, or nothing
    if it provides nothing.  Then a run on a clipboard whose keys are
    exactly the derived requires fails no [checkRequire] of a child: it
    returns, or a child's delta fails that child's [checkProvide]. *)
Theorem MultiStage_requires_sound (I : list (list value) → Prop) (depth : nat)
    (self_name : string) (stages : list Stage) (own_requires own_provides : gset string)
    (kw : loc) (σ : state) (c : clipboard) :
  let self := MultiStage self_name stages own_requires own_provides in
  Forall (delivers I (S depth)) stages →
  dicts σ !! kw = Some c → I (lists σ) →
  dom c = requires self →
  ∃ ret σ', run depth self kw σ = (ret, σ') ∧
    (ret = Ok (RDict kw) ∨
     ∃ stage, stage ∈ stages ∧
       ret = Raise (AssertionError (ProvisionsNotMetWithin (name stage) self_name))).
Proof.
  intros self Hall Hkw HI Hdom. unfold self at 1. cbn [run]. unfold MultiStage_run.
  fold self. rewrite (bind_Ok _ _ _ _ _ (checkRequire_Some _ _ _ _ Hkw)).
  assert (_check (requires self) c = true) as -> by (apply _check_spec; set_solver).
  cbn [negb]. change (name self) with self_name.
  destruct (run_stages_sound I depth self_name stages kw σ c) as (r & σ' & Hrun & Hs);
    try done.
  { rewrite Hdom. unfold self. rewrite requires_MultiStage_needs. set_solver. }
  rewrite bind_unfold, Hrun.
  destruct Hs as [->|(s & Hs & ->)].
  - eexists _, _. split; [done|]. by left.
  - eexists _, _. split; [done|]. right. by exists s.
Qed.


Lemma MultiStage_requires_sound_pipeline :
  ∃ ret σ', run 0 pipeline 0 (driver_store exposure_only) = (ret, σ') ∧
    (ret = Ok (RDict 0) ∨
     ∃ stage, stage ∈ pipeline_stages ∧
       ret = Raise (AssertionError
                      (ProvisionsNotMetWithin (name stage) (name pipeline)))).
Proof.
  apply (MultiStage_requires_sound (λ _, True)) with (c := exposure_only).
  - repeat apply Forall_cons_2; [| | |apply Forall_nil_2].
    + apply UserStage_delivers. intros c ls _ _. by eexists _, ls.
    + apply IgnoredStage_delivers.
    + apply UserStage_delivers. intros c ls _ _. by eexists _, ls.
  - reflexivity.
  - exact Logic.I.
  - apply leibniz_equiv. apply set_equiv. intros k.
    rewrite requires_MultiStage_needs. vm_compute. tauto.
Defined.

(** C2 fails as the specification words it: the first child declares
    that it provides [sources] and returns nothing, so nothing is merged
    and the second child finds its requirement unmet, although the run
    started on exactly the derived requires (none). *)
Lemma MultiStage_requires_unsound :
  dom (∅ : clipboard) = requires unsound_pipeline ∧
  (call_run unsound_pipeline 0 (driver_store ∅)).1 = Raise consumer_starved.
Proof. split; [|by vm_compute]. by apply leibniz_equiv. Qed.

(** ** C9: the clipboard across calls

    C9 (as amended).  A stage is called with keyword expansion of the
    clipboard, so it works on a dict of its own: whatever the stage, the
    call leaves every dict that existed before it as it was, the dict of
    the caller included, and a dict it returns is a new object.  Keys
    merged by the stages are visible in the returned dict only. *)
Theorem call_run_copies (self : Stage) (clipboard : loc) (σ : state) :
  (∀ l, l < length (dicts σ) →
     dicts (call_run self clipboard σ).2 !! l = dicts σ !! l) ∧
  (∀ r, (call_run self clipboard σ).1 = Ok (RDict r) → length (dicts σ) ≤ r).
Proof.
  unfold call_run. destruct (dicts σ !! clipboard) as [c|] eqn:Hc.
  - rewrite (call_kw_Some _ _ _ _ Hc).
    destruct (run 0 self (length (dicts σ))
                (State (lists σ) (dicts σ ++ [c]) (trace σ))) as [ret σ'] eqn:Hrun.
    destruct (run_callee _ _ _ _ _ _ Hrun) as (Hlen & Hframe & _ & Hret).
    cbn [fst snd dicts] in *. rewrite length_app in *. cbn [length] in *. split.
    + intros l Hl. rewrite Hframe by lia. by apply lookup_app_l.
    + intros r ->. destruct (Hret r eq_refl); lia.
  - assert (call_kw clipboard (run 0 self) σ = (Raise DanglingReference, σ)) as ->.
    { unfold call_kw. apply bind_Raise. unfold dict_read. by rewrite Hc. }
    split; [done|]. intros r Hr. discriminate Hr.
Qed.

Lemma call_run_copies_pipeline :
  (∀ l, l < length (dicts (driver_store exposure_only)) →
     dicts (call_run pipeline 0 (driver_store exposure_only)).2 !! l
     = dicts (driver_store exposure_only) !! l) ∧
  (∀ r, (call_run pipeline 0 (driver_store exposure_only)).1 = Ok (RDict r) →
     length (dicts (driver_store exposure_only)) ≤ r).
Proof. apply (call_run_copies pipeline 0 (driver_store exposure_only)). Defined.

(** C9 fails as the specification words it: the driver's dict (object 0)
    still holds [exposure] alone after the run; the key [sources] merged
    by the pipeline is in another object, the returned dict. *)
Lemma clipboard_not_shared :
  (call_run pipeline 0 (driver_store exposure_only)).1 = Ok (RDict 1) ∧
  dicts (call_run pipeline 0 (driver_store exposure_only)).2 !! 0
  = Some exposure_only ∧
  dom exposure_only = {["exposure"%string]} ∧
  dom <$> dicts (call_run pipeline 0 (driver_store exposure_only)).2 !! 1
  = Some {["exposure"%string; "sources"%string]}.
Proof.
  split_and!; [by vm_compute|by vm_compute|..].
  - apply dom_singleton_L.
  - assert (dicts (call_run pipeline 0 (driver_store exposure_only)).2 !! 1
            = Some (<["sources"%string := VInt 8]> exposure_only)) as ->
      by (by vm_compute).
    cbn. by f_equal.
Qed.

(** ** The first loop of [IterateStage.run] *)

Lemma list_len_Some l xs σ :
  lists σ !! l = Some xs → list_len l σ = (Ok (length xs), σ).
Proof. unfold list_len. by intros ->. Qed.

Lemma array_of_Some c key l :
  array_of c key = Some l → c !! key = Some (VList l).
Proof.
  unfold array_of. destruct (c !! key) as [[]|]; naive_solver.
Qed.

Lemma sequence_Some σ c key xs :
  sequence σ c key = Some xs →
  ∃ l, c !! key = Some (VList l) ∧ lists σ !! l = Some xs.
Proof.
  unfold sequence. destruct (array_of c key) as [l|] eqn:Ha; [|done].
  cbn. intros Hl. exists l. split; [by apply array_of_Some|done].
Qed.

(** The first loop of [IterateStage.run] when every sequence has the
    length [n]. *)
Lemma gather_equal_length iterate names kw σ c n : ∀ length arrays,
  dicts σ !! kw = Some c →
  Forall (λ key, ∃ xs, sequence σ c key = Some xs ∧ List.length xs = n) names →
  length = None ∨ length = Some n →
  gather iterate names kw length arrays σ
  = (Ok (match names with [] => length | _ => Some n end,
         arrays_of c names arrays), σ).
Proof.
  intros length arrays Hkw Hall. revert length arrays.
  induction Hall as [|key rest (xs & Hseq & Hlen) Hrest IH]; intros length arrays Hl.
  - done.
  - cbn [gather arrays_of foldl].
    apply sequence_Some in Hseq as (l & Hkey & Hxs).
    rewrite (bind_Ok _ _ _ _ _ (dict_read_Some _ _ _ Hkw)). cbn beta. rewrite Hkey.
    rewrite (bind_Ok _ _ _ _ _ (list_len_Some _ _ _ Hxs)).
    assert (array_of c key = Some l) as -> by (unfold array_of; by rewrite Hkey).
    rewrite Hlen.
    destruct Hl as [->| ->].
    + rewrite IH by (by right). by destruct rest.
    + rewrite decide_False by (intros H; by apply H).
      rewrite IH by (by right). by destruct rest.
Qed.

(** The first loop raises as soon as a sequence differs in length from
    the first one. *)
Lemma gather_different_length iterate names kw σ c n : ∀ arrays,
  dicts σ !! kw = Some c →
  Forall (λ key, is_Some (sequence σ c key)) names →
  Exists (λ key, ∃ xs, sequence σ c key = Some xs ∧ List.length xs ≠ n) names →
  gather iterate names kw (Some n) arrays σ
  = (Raise (RuntimeError (DifferentLength iterate)), σ).
Proof.
  intros arrays Hkw Hall Hex. revert arrays.
  induction names as [|key rest IH]; intros arrays.
  - by apply Exists_nil in Hex.
  - apply Forall_cons in Hall as [[xs Hseq] Hall]. cbn [gather].
    pose proof Hseq as Hseq'.
    apply sequence_Some in Hseq as (l & Hkey & Hxs).
    rewrite (bind_Ok _ _ _ _ _ (dict_read_Some _ _ _ Hkw)). cbn beta. rewrite Hkey.
    rewrite (bind_Ok _ _ _ _ _ (list_len_Some _ _ _ Hxs)).
    case_decide as Hn; [done|].
    apply Exists_cons in Hex as [(xs' & Hseq'' & Hne)|Hex].
    + rewrite Hseq' in Hseq''. injection Hseq'' as <-. lia.
    + by apply IH.
Qed.

(** ** C6: sequences of different lengths

    C6.  When the clipboard meets the requirements and binds every
    iterated key to a list, and two of the lists differ in length,
    [IterateStage.run] raises the [RuntimeError] that reports the iterated
    keys, with the store and the trace as they were: the body has not run. *)
Theorem IterateStage_length_mismatch (depth : nat) (iterate : list string)
    (base : Stage) (kw : loc) (σ : state) (c : clipboard) (key1 key2 : string) :
  dicts σ !! kw = Some c →
  requires base ⊆ dom c →
  Forall (λ key, is_Some (sequence σ c key)) iterate →
  key1 ∈ iterate → key2 ∈ iterate →
  length <$> sequence σ c key1 ≠ length <$> sequence σ c key2 →
  run depth (IterateOver iterate base) kw σ
  = (Raise (RuntimeError (DifferentLength iterate)), σ).
Proof.
  intros Hkw Hreq Hall H1 H2 Hne. cbn [run]. unfold IterateStage_run.
  rewrite (bind_Ok _ _ _ _ _ (checkRequire_Some _ _ _ _ Hkw)).
  assert (_check (requires (IterateOver iterate base)) c = true) as ->
    by (by apply _check_spec).
  cbn [negb].
  assert (gather iterate iterate kw None ∅ σ
          = (Raise (RuntimeError (DifferentLength iterate)), σ)) as Hg;
    [|by rewrite bind_unfold, Hg].
  generalize iterate at 1 3. intros it.
  destruct iterate as [|key rest]; [by apply elem_of_nil in H1|].
  apply Forall_cons in Hall as [[xs Hseq] Hall]. cbn [gather].
  pose proof Hseq as Hseq'.
  apply sequence_Some in Hseq as (l & Hkey & Hxs).
  rewrite (bind_Ok _ _ _ _ _ (dict_read_Some _ _ _ Hkw)). cbn beta. rewrite Hkey.
  rewrite (bind_Ok _ _ _ _ _ (list_len_Some _ _ _ Hxs)).
  apply gather_different_length with (c := c); [done|done|].
  apply Exists_exists.
  assert (∀ k, k ∈ key :: rest → k ∈ rest ∨ sequence σ c k = Some xs) as Hcase.
  { intros k [->|Hk]%elem_of_cons; [by right|by left]. }
  destruct (decide (length <$> sequence σ c key1 = Some (length xs))) as [He1|Hn1].
  - exists key2. destruct (Hcase key2 H2) as [Hin|Hs].
    + split; [done|]. rewrite Forall_forall in Hall.
      destruct (Hall _ Hin) as [ys Hys]. exists ys. split; [done|].
      rewrite He1, Hys in Hne. cbn in Hne. congruence.
    + rewrite He1, Hs in Hne. done.
  - exists key1. destruct (Hcase key1 H1) as [Hin|Hs].
    + split; [done|]. rewrite Forall_forall in Hall.
      destruct (Hall _ Hin) as [ys Hys]. exists ys. split; [done|].
      rewrite Hys in Hn1. cbn in Hn1. congruence.
    + rewrite Hs in Hn1. done.
Qed.

Lemma IterateStage_length_mismatch_3_4 :
  run 0 iterate_echo 0 store_3_4
  = (Raise (RuntimeError (DifferentLength [key_A; key_B])), store_3_4).
Proof.
  apply (IterateStage_length_mismatch 0 [key_A; key_B] echo 0 store_3_4
           two_sequences key_A key_B).
  - reflexivity.
  - apply _check_spec. by vm_compute.
  - repeat constructor; by eexists.
  - apply list_elem_of_here.
  - apply list_elem_of_further, list_elem_of_here.
  - vm_compute. discriminate.
Defined.

(** ** C8: sequences of length zero

    C8.  When the clipboard meets the requirements and the provisions and
    binds every iterated key (there is at least one) to an empty list,
    [IterateStage.run] returns its clipboard with the store and the trace
    as they were: the body has not run, nothing has changed. *)
Theorem IterateStage_zero_length (depth : nat) (iterate : list string)
    (base : Stage) (kw : loc) (σ : state) (c : clipboard) :
  dicts σ !! kw = Some c →
  requires base ⊆ dom c → provides base ⊆ dom c →
  iterate ≠ [] →
  Forall (λ key, sequence σ c key = Some []) iterate →
  run depth (IterateOver iterate base) kw σ = (Ok (RDict kw), σ).
Proof.
  intros Hkw Hreq Hprov Hne Hall. cbn [run]. unfold IterateStage_run.
  rewrite (bind_Ok _ _ _ _ _ (checkRequire_Some _ _ _ _ Hkw)).
  assert (_check (requires (IterateOver iterate base)) c = true) as ->
    by (by apply _check_spec).
  cbn [negb]. rewrite bind_unfold.
  rewrite (gather_equal_length iterate iterate kw σ c 0 None ∅ Hkw); [|..|by left].
  2:{ eapply Forall_impl; [done|]. intros key Hk. by exists []. }
  destruct iterate as [|key rest]; [done|]. cbn iota beta. cbn [seq iterations].
  rewrite bind_ret.
  rewrite (bind_Ok _ _ _ _ _ (checkProvide_Some _ _ _ _ Hkw)).
  assert (_check (provides (IterateOver (key :: rest) base)) c = true) as ->
    by (by apply _check_spec).
  done.
Qed.

Lemma IterateStage_zero_length_0_0 :
  run 0 iterate_echo 0 store_0_0 = (Ok (RDict 0), store_0_0).
Proof.
  apply (IterateStage_zero_length 0 [key_A; key_B] echo 0 store_0_0 two_sequences).
  - reflexivity.
  - apply _check_spec. by vm_compute.
  - apply _check_spec. by vm_compute.
  - discriminate.
  - by repeat constructor.
Defined.

(** ** The loop of [IterateStage.run] over the indices *)

Lemma list_get_Some l xs index v σ :
  lists σ !! l = Some xs → xs !! index = Some v →
  list_get l index σ = (Ok v, σ).
Proof. unfold list_get. by intros -> ->. Qed.

Lemma list_set_Some l xs index v σ :
  lists σ !! l = Some xs → index < length xs →
  list_set l index v σ
  = (Ok (), State (<[l := <[index := v]> xs]> (lists σ)) (dicts σ) (trace σ)).
Proof.
  unfold list_set. intros -> Hlt. by rewrite decide_True.
Qed.

Lemma dict_set_Some d key v c σ :
  dicts σ !! d = Some c →
  dict_set d key v σ
  = (Ok (), State (lists σ) (<[d := <[key := v]> c]> (dicts σ)) (trace σ)).
Proof.
  intros Hd. unfold dict_set.
  by rewrite (bind_Ok _ _ _ _ _ (dict_read_Some _ _ _ Hd)).
Qed.

Lemma arrays_of_cons c name rest arrays :
  arrays_of c (name :: rest) arrays
  = arrays_of c rest (match array_of c name with
                      | Some l => <[name := l]> arrays
                      | None => arrays
                      end).
Proof. reflexivity. Qed.

Lemma arrays_of_lookup c names : ∀ arrays key,
  arrays_of c names arrays !! key
  = if decide (key ∈ names) then
      match array_of c key with Some l => Some l | None => arrays !! key end
    else arrays !! key.
Proof.
  induction names as [|name rest IH]; intros arrays key.
  - by rewrite decide_False by apply not_elem_of_nil.
  - rewrite arrays_of_cons, IH.
    destruct (decide (key ∈ rest)) as [Hin|Hnin].
    + rewrite decide_True by (by right).
      destruct (array_of c key) eqn:Hk; [done|].
      destruct (array_of c name) eqn:Hn; [|done].
      rewrite lookup_insert_ne; [done|]. by intros ->; congruence.
    + destruct (decide (key = name)) as [->|Hne].
      * rewrite decide_True by (by left).
        destruct (array_of c name); [by rewrite lookup_insert_eq|done].
      * rewrite decide_False by (intros [?|?]%elem_of_cons; done).
        destruct (array_of c name); [by rewrite lookup_insert_ne|done].
Qed.

Lemma arrays_of_iterate c iterate key l :
  key ∈ iterate → array_of c key = Some l →
  arrays_of c iterate ∅ !! key = Some l.
Proof.
  intros Hin Hl. rewrite arrays_of_lookup, decide_True by done. by rewrite Hl.
Qed.

(** The loop that rebinds the iterated keys in the copy [clip]. *)
Lemma rebind_rebound (elt : string → option value) names arrays index clip :
  ∀ σ view,
  dicts σ !! clip = Some view →
  Forall (λ key, ∃ l xs v, arrays !! key = Some l ∧ lists σ !! l = Some xs ∧
                   xs !! index = Some v ∧ elt key = Some v) names →
  rebind names arrays index clip σ
  = (Ok (), State (lists σ) (<[clip := rebound elt view names]> (dicts σ))
              (trace σ)).
Proof.
  induction names as [|key rest IH]; intros σ view Hclip Hall.
  - cbn. rewrite list_insert_id by done. by destruct σ.
  - apply Forall_cons in Hall as [(l & xs & v & Ha & Hl & Hv & He) Hall].
    cbn [rebind rebound foldl]. rewrite Ha, He.
    rewrite (bind_Ok _ _ _ _ _ (list_get_Some _ _ _ _ _ Hl Hv)).
    rewrite (bind_Ok _ _ _ _ _ (dict_set_Some _ _ _ _ _ Hclip)).
    assert (clip < length (dicts σ)) by (by eapply lookup_lt_Some).
    rewrite (IH _ (<[key := v]> view)).
    + cbn. by rewrite list_insert_insert_eq.
    + cbn. by apply list_lookup_insert_eq.
    + done.
Qed.

Lemma subscript_Some r δ key v σ :
  dicts σ !! r = Some δ → δ !! key = Some v →
  subscript (RDict r) key σ = (Ok v, σ).
Proof.
  intros Hr Hk. cbn [subscript].
  rewrite (bind_Ok _ _ _ _ _ (dict_read_Some _ _ _ Hr)). cbn beta.
  by rewrite Hk.
Qed.

Lemma array_of_inj c key l l' :
  array_of c key = Some l → array_of c key = Some l' → l = l'.
Proof. congruence. Qed.

(** The loop that writes the results back into the iterated lists. *)
Lemma write_back_writes I iterate c names arrays index r δ (w : string → value) :
  ignores_elements I iterate c → unaliased iterate c →
  (∀ key, key ∈ names → key ∈ iterate) →
  (∀ key l, key ∈ iterate → array_of c key = Some l → arrays !! key = Some l) →
  (∀ key, key ∈ names → δ !! key = Some (w key)) →
  ∀ σ,
  dicts σ !! r = Some δ → I (lists σ) →
  (∀ key, key ∈ iterate →
     ∃ l ys, array_of c key = Some l ∧ lists σ !! l = Some ys ∧ index < length ys) →
  ∃ σ', write_back names arrays index (RDict r) σ = (Ok (), σ') ∧
    dicts σ' = dicts σ ∧ trace σ' = trace σ ∧ I (lists σ') ∧
    ∀ key l ys, key ∈ iterate → array_of c key = Some l →
      lists σ !! l = Some ys →
      lists σ' !! l
      = Some (if decide (key ∈ names) then <[index := w key]> ys else ys).
Proof.
  intros HI Hun Hsub Harrays Hδ.
  induction names as [|key rest IH]; intros σ Hr HIσ Hlists.
  - exists σ. split_and!; try done; intros key l ys _ _ Hl;
      by rewrite decide_False by apply not_elem_of_nil.
  - assert (key ∈ iterate) as Hkey by (apply Hsub; by left).
    destruct (Hlists key Hkey) as (l & ys & Ha & Hl & Hlt).
    cbn [write_back]. rewrite (Harrays _ _ Hkey Ha).
    rewrite (bind_Ok _ _ _ _ _ (subscript_Some _ _ _ _ _ Hr (Hδ key ltac:(by left)))).
    rewrite (bind_Ok _ _ _ _ _ (list_set_Some _ _ _ (w key) _ Hl Hlt)).
    set (σ1 := State (<[l := <[index := w key]> ys]> (lists σ)) (dicts σ) (trace σ)).
    assert (l < length (lists σ)) as Hlvalid by (by eapply lookup_lt_Some).
    destruct (IH ltac:(intros k Hk; apply Hsub; by right)
                 ltac:(intros k Hk; apply Hδ; by right) σ1)
      as (σ' & Hrun & Hd & Ht & HI' & Hfinal).
    { done. }
    { cbn. by eapply HI. }
    { intros key' Hkey'. destruct (Hlists key' Hkey') as (l' & ys' & Ha' & Hl' & Hlt').
      destruct (decide (l' = l)) as [->|Hne].
      - exists l, (<[index := w key]> ys). split_and!; [done|..].
        + cbn. by apply list_lookup_insert_eq.
        + rewrite length_insert. congruence.
      - exists l', ys'. split_and!; [done| |done].
        cbn. by rewrite list_lookup_insert_ne. }
    exists σ'. split_and!; try done.
    intros key' l' ys' Hkey' Ha' Hl'.
    destruct (decide (l' = l)) as [->|Hne].
    + assert (key' = key) as -> by (apply Hun; [done|done|congruence]).
      assert (ys' = ys) as -> by congruence.
      rewrite (Hfinal key l (<[index := w key]> ys)); [|done|done|..].
      2:{ cbn. by apply list_lookup_insert_eq. }
      rewrite (decide_True (P := key ∈ key :: rest)) by (by left).
      case_decide; [by rewrite list_insert_insert_eq|done].
    + assert (key' ≠ key) as Hkne.
      { intros ->. apply Hne. by eapply array_of_inj. }
      rewrite (Hfinal key' l' ys'); [|done|done|..].
      2:{ cbn. by rewrite list_lookup_insert_ne. }
      destruct (decide (key' ∈ rest)) as [Hin|Hnin].
      * by rewrite decide_True by (by right).
      * rewrite decide_False; [done|]. by intros [?|?]%elem_of_cons.
Qed.

Lemma insert_written {A} (f : nat → A) (xs : list A) (index : nat) :
  index < length xs →
  <[index := f index]> ((f <$> seq 0 index) ++ drop index xs)
  = (f <$> seq 0 (S index)) ++ drop (S index) xs.
Proof.
  intros Hlt. destruct (lookup_lt_is_Some_2 xs index Hlt) as [x Hx].
  rewrite insert_app_r_alt by (rewrite length_fmap, length_seq; lia).
  rewrite length_fmap, length_seq, Nat.sub_diag.
  rewrite (drop_S _ _ _ Hx). cbn [insert list_insert].
  rewrite seq_S, fmap_app, <- app_assoc. done.
Qed.

Lemma lookup_written {A} (f : nat → A) (xs : list A) (index : nat) :
  ((f <$> seq 0 index) ++ drop index xs) !! index = xs !! index.
Proof.
  rewrite lookup_app_r by (rewrite length_fmap, length_seq; lia).
  rewrite length_fmap, length_seq, Nat.sub_diag, lookup_drop. f_equal. lia.
Qed.

Lemma length_written {A} (f : nat → A) (xs : list A) (index : nat) :
  index ≤ length xs →
  length ((f <$> seq 0 index) ++ drop index xs) = length xs.
Proof.
  intros Hle. rewrite length_app, length_fmap, length_seq, length_drop. lia.
Qed.

Lemma dict_copy_Some d c σ :
  dicts σ !! d = Some c →
  dict_copy d σ
  = (Ok (length (dicts σ)), State (lists σ) (dicts σ ++ [c]) (trace σ)).
Proof.
  intros Hd. unfold dict_copy.
  by rewrite (bind_Ok _ _ _ _ _ (dict_read_Some _ _ _ Hd)).
Qed.

Lemma at_depth_here depth e :
  depth_of e = depth → at_depth depth [e] = [e].
Proof. intros He. unfold at_depth. by rewrite filter_cons_True. Qed.

(** A turn of the loop up to the call of the inherited [run]: the call is
    made on a new dict that holds the view, in a store whose lists are
    those the turn started with. *)
Lemma iteration_call I depth (super_run : loc → M retval) iterate kw c wrote
    σ0 index σ L :
  Forall (λ key, ∃ xs, sequence σ0 c key = Some xs ∧ length xs = L) iterate →
  index < L →
  turned I depth kw c iterate wrote σ0 index σ →
  ∃ σ1 kw',
    iteration super_run depth iterate (arrays_of c iterate ∅) kw index σ
    = (super_run kw' ≫= write_back iterate (arrays_of c iterate ∅) index) σ1 ∧
    dicts σ1 !! kw' = Some (view_at σ0 c iterate index) ∧
    lists σ1 = lists σ ∧
    trace σ1 = trace σ ++ [EBody depth index (view_at σ0 c iterate index)] ∧
    dicts σ1 !! kw = Some c ∧ kw < length (dicts σ1) ∧ kw ≠ kw'.
Proof.
  intros Hlen Hlt (Hkw & HIσ & Hlists & t & Ht & Hevents).
  rewrite Forall_forall in Hlen.
  assert (kw < length (dicts σ)) as Hkwlt by (by eapply lookup_lt_Some).
  unfold iteration.
  rewrite (bind_Ok _ _ _ _ _ (dict_copy_Some _ _ _ Hkw)).
  set (clip := length (dicts σ)).
  set (σa := State (lists σ) (dicts σ ++ [c]) (trace σ)).
  assert (dicts σa !! clip = Some c) as Hclip1.
  { cbn. unfold clip. by rewrite lookup_app_r, Nat.sub_diag. }
  assert (Forall (λ key, ∃ l xs v, arrays_of c iterate ∅ !! key = Some l ∧
                    lists σa !! l = Some xs ∧ xs !! index = Some v ∧
                    (xs ← sequence σ0 c key; xs !! index) = Some v) iterate)
    as Helts.
  { apply Forall_forall. intros key Hkey.
    destruct (Hlists key Hkey) as (l & xs & Ha & Hl0 & Hl).
    destruct (Hlen key Hkey) as (xs' & Hseq & Hxs').
    assert (xs' = xs) as ->.
    { unfold sequence in Hseq. rewrite Ha in Hseq. cbn in Hseq. congruence. }
    destruct (lookup_lt_is_Some_2 xs index ltac:(lia)) as [v Hv].
    exists l, (((λ j, wrote j key) <$> seq 0 index) ++ drop index xs), v.
    split_and!; [by apply arrays_of_iterate|done|by rewrite lookup_written|].
    rewrite Hseq. done. }
  rewrite (bind_Ok _ _ _ _ _
             (rebind_rebound (λ key, xs ← sequence σ0 c key; xs !! index)
                iterate (arrays_of c iterate ∅) index clip σa c Hclip1 Helts)).
  fold (view_at σ0 c iterate index).
  set (view := view_at σ0 c iterate index) in *.
  set (σb := State (lists σa) (<[clip := view]> (dicts σa)) (trace σa)).
  assert (dicts σb !! clip = Some view) as Hclip2.
  { cbn. apply list_lookup_insert_eq. rewrite length_app. cbn. unfold clip. lia. }
  rewrite (bind_Ok _ _ _ _ _ (dict_read_Some _ _ _ Hclip2)).
  rewrite bind_unfold. unfold emit at 1. cbn iota beta.
  set (σc := State (lists σb) (dicts σb) (trace σb ++ [EBody depth index view])).
  assert (dicts σc !! clip = Some view) as Hclip3 by done.
  rewrite (bind_unfold (call_kw _ _)), (call_kw_Some _ _ _ _ Hclip3).
  assert (length (dicts σc) = S (length (dicts σ))) as Hlen3.
  { cbn. rewrite length_insert, length_app. cbn. lia. }
  eexists (State (lists σc) (dicts σc ++ [view]) (trace σc)), (length (dicts σc)).
  split; [by rewrite bind_unfold|]. cbn [lists dicts trace].
  split_and!; try done.
  - by rewrite lookup_app_r, Nat.sub_diag.
  - rewrite lookup_app_l by lia. cbn.
    rewrite list_lookup_insert_ne by (unfold clip; lia). by rewrite lookup_app_l.
  - rewrite length_app. lia.
  - lia.
Qed.

(** One turn of the loop of [IterateStage.run]. *)
Lemma iteration_turn I depth base iterate kw c wrote σ0 index σ L :
  ignores_elements I iterate c → unaliased iterate c →
  Forall (λ key, ∃ xs, sequence σ0 c key = Some xs ∧ length xs = L) iterate →
  index < L →
  turned I depth kw c iterate wrote σ0 index σ →
  body_writes I (S depth) base iterate c (view_at σ0 c iterate index) (wrote index) →
  ∃ σ', iteration (run (S depth) base) depth iterate (arrays_of c iterate ∅)
          kw index σ = (Ok (), σ') ∧
        turned I depth kw c iterate wrote σ0 (S index) σ'.
Proof.
  intros HI Hun Hlen Hlt Hturned Hbody.
  destruct (iteration_call I depth (run (S depth) base) iterate kw c wrote σ0
              index σ L Hlen Hlt Hturned)
    as (σ4 & kw' & -> & Hkw' & Hlists4 & Ht4 & Hkw4 & Hkwlt & Hne).
  destruct Hturned as (Hkw & HIσ & Hlists & t & Ht & Hevents).
  rewrite Forall_forall in Hlen.
  destruct (Hbody σ4 kw') as (r & δ & σ5 & Hrun & HI5 & Hr & Hδ & Hkeep);
    [by rewrite Hlists4|done|].
  rewrite (bind_Ok _ _ _ _ _ Hrun).
  destruct (run_callee _ _ _ _ _ _ Hrun) as (Hlen5 & Hframe & (t5 & Ht5 & Hdeep) & _).
  assert (dicts σ5 !! kw = Some c) as Hkw5 by (by rewrite Hframe).
  assert (∀ key, key ∈ iterate → ∃ l xs,
            array_of c key = Some l ∧ lists σ0 !! l = Some xs ∧ length xs = L ∧
            lists σ5 !! l
            = Some (((λ j, wrote j key) <$> seq 0 index) ++ drop index xs))
    as Hlists5.
  { intros key Hkey. destruct (Hlists key Hkey) as (l & xs & Ha & Hl0 & Hl).
    destruct (Hlen key Hkey) as (xs' & Hseq & Hxs').
    assert (xs' = xs) as ->.
    { unfold sequence in Hseq. rewrite Ha in Hseq. cbn in Hseq. congruence. }
    exists l, xs. split_and!; try done.
    by rewrite (Hkeep key l Hkey Ha), Hlists4. }
  destruct (write_back_writes I iterate c iterate (arrays_of c iterate ∅) index r δ
              (wrote index) HI Hun ltac:(done)
              ltac:(intros; by apply arrays_of_iterate) Hδ σ5 Hr HI5)
    as (σ6 & Hwb & Hd6 & Ht6 & HI6 & Hfinal).
  { intros key Hkey. destruct (Hlists5 key Hkey) as (l & xs & Ha & Hl0 & Hxs & Hl).
    eexists l, _. split_and!; [done|done|]. rewrite length_written by lia. lia. }
  exists σ6. split; [done|]. split_and!.
  - by rewrite Hd6.
  - done.
  - intros key Hkey. destruct (Hlists5 key Hkey) as (l & xs & Ha & Hl0 & Hxs & Hl).
    exists l, xs. split_and!; [done|done|].
    rewrite (Hfinal key l _ Hkey Ha Hl).
    rewrite decide_True by done.
    by rewrite (insert_written (λ j, wrote j key)) by lia.
  - exists (t ++ [EBody depth index (view_at σ0 c iterate index)] ++ t5). split.
    + rewrite Ht6, Ht5, Ht4, Ht. by rewrite <- !app_assoc.
    + rewrite !at_depth_app, Hevents, (at_depth_deeper _ _ Hdeep), app_nil_r.
      rewrite at_depth_here by done. by rewrite seq_S, fmap_app.
Qed.

Lemma iterations_app (super_run : loc → M retval) depth iterate arrays kw
    indices1 indices2 σ :
  iterations super_run depth iterate arrays kw (indices1 ++ indices2) σ
  = (iterations super_run depth iterate arrays kw indices1 ≫=
       λ _, iterations super_run depth iterate arrays kw indices2) σ.
Proof.
  revert σ. induction indices1 as [|index rest IH]; intros σ; [done|].
  cbn [app iterations]. rewrite !bind_unfold.
  destruct (iteration super_run depth iterate arrays kw index σ) as [[[]|e] σ'];
    [|done].
  rewrite IH. by rewrite bind_unfold.
Qed.

(** The turns for the indices below [n]. *)
Lemma iterations_turned I depth base iterate kw c wrote σ0 L n :
  ignores_elements I iterate c → unaliased iterate c →
  Forall (λ key, ∃ xs, sequence σ0 c key = Some xs ∧ length xs = L) iterate →
  n ≤ L →
  turned I depth kw c iterate wrote σ0 0 σ0 →
  (∀ index, index < n →
     body_writes I (S depth) base iterate c (view_at σ0 c iterate index)
       (wrote index)) →
  ∃ σ', iterations (run (S depth) base) depth iterate (arrays_of c iterate ∅)
          kw (seq 0 n) σ0 = (Ok (), σ') ∧
        turned I depth kw c iterate wrote σ0 n σ'.
Proof.
  intros HI Hun Hlen Hn Hstart Hbody. induction n as [|n IH].
  - by exists σ0.
  - destruct IH as (σ & Hrun & Hturned); [lia|intros; apply Hbody; lia|].
    destruct (iteration_turn I depth base iterate kw c wrote σ0 n σ L
                HI Hun Hlen ltac:(lia) Hturned (Hbody n ltac:(lia)))
      as (σ' & Hturn & Hturned').
    exists σ'. split; [|done].
    rewrite seq_S, iterations_app, (bind_Ok _ _ _ _ _ Hrun).
    cbn [iterations plus]. by rewrite (bind_Ok _ _ _ _ _ Hturn).
Qed.

Lemma turned_start I depth kw c iterate wrote σ L :
  dicts σ !! kw = Some c → I (lists σ) →
  Forall (λ key, ∃ xs, sequence σ c key = Some xs ∧ length xs = L) iterate →
  turned I depth kw c iterate wrote σ 0 σ.
Proof.
  intros Hkw HI Hlen. rewrite Forall_forall in Hlen. split_and!; [done|done|..].
  - intros key Hkey. destruct (Hlen key Hkey) as (xs & Hseq & _).
    unfold sequence in Hseq. destruct (array_of c key) as [l|]; [|done].
    exists l, xs. cbn in Hseq. by split_and!.
  - exists []. by rewrite app_nil_r.
Qed.

(** ** C5: per-element views and write-back

    C5 (as amended).  Let the clipboard meet the requirements and bind the
    iterated keys (at least one) to lists of length [L], distinct keys to
    distinct list objects; let the body, run on the view of each index,
    return a dict that binds every iterated key and leave the iterated
    lists as they are.  Then [IterateStage.run] invokes the body exactly
    [L] times, the turn for [index] on a copy of the clipboard in which
    every iterated key is rebound to the element of its sequence at
    [index]; afterwards every iterated sequence holds at every index what
    the body returned for its key at that index, and the dict of the call
    holds the incoming bindings.  The run returns that dict, or raises
    when the provisions are not among its keys. *)
Theorem IterateStage_run_writes_back (I : list (list value) → Prop)
    (depth : nat) (iterate : list string) (base : Stage) (kw : loc) (σ : state)
    (c : clipboard) (L : nat) (wrote : nat → string → value) :
  dicts σ !! kw = Some c →
  requires base ⊆ dom c →
  iterate ≠ [] →
  Forall (λ key, ∃ xs, sequence σ c key = Some xs ∧ length xs = L) iterate →
  unaliased iterate c →
  I (lists σ) → ignores_elements I iterate c →
  (∀ index, index < L →
     body_writes I (S depth) base iterate c (view_at σ c iterate index)
       (wrote index)) →
  ∃ σ' t,
    run depth (IterateOver iterate base) kw σ
      = (if _check (provides base) c then Ok (RDict kw)
         else Raise (AssertionError (ProvisionsNotMet (name base))), σ') ∧
    trace σ' = trace σ ++ t ∧
    at_depth depth t = (λ index, EBody depth index (view_at σ c iterate index))
                         <$> seq 0 L ∧
    (∀ key, key ∈ iterate →
       sequence σ' c key = Some ((λ index, wrote index key) <$> seq 0 L)) ∧
    dicts σ' !! kw = Some c.
Proof.
  intros Hkw Hreq Hne Hlen Hun HI Hign Hbody. cbn [run]. unfold IterateStage_run.
  rewrite (bind_Ok _ _ _ _ _ (checkRequire_Some _ _ _ _ Hkw)).
  assert (_check (requires (IterateOver iterate base)) c = true) as ->
    by (by apply _check_spec).
  cbn [negb]. rewrite bind_unfold.
  rewrite (gather_equal_length iterate iterate kw σ c L None ∅ Hkw Hlen); [|by left].
  assert (match iterate with [] => None | _ => Some L end = Some L) as ->
    by (by destruct iterate).
  cbn iota beta. change (arrays_of c iterate ∅) with (arrays_of c iterate ∅).
  destruct (iterations_turned I depth base iterate kw c wrote σ L L
              Hign Hun Hlen ltac:(lia)
              (turned_start I depth kw c iterate wrote σ L Hkw HI Hlen) Hbody)
    as (σ' & Hrun & Hkw' & HI' & Hlists & t & Ht & Hevents).
  rewrite (bind_Ok _ _ _ _ _ Hrun).
  rewrite (bind_Ok _ _ _ _ _ (checkProvide_Some _ _ _ _ Hkw')).
  change (provides (IterateOver iterate base)) with (provides base).
  change (name (IterateOver iterate base)) with (name base).
  exists σ', t. split_and!; try done.
  - by destruct (_check (provides base) c).
  - intros key Hkey. destruct (Hlists key Hkey) as (l & xs & Ha & Hl0 & Hl).
    unfold sequence. rewrite Ha. cbn. rewrite Hl.
    rewrite Forall_forall in Hlen. destruct (Hlen key Hkey) as (xs' & Hseq & Hxs').
    assert (xs' = xs) as ->.
    { unfold sequence in Hseq. rewrite Ha in Hseq. cbn in Hseq. congruence. }
    by rewrite drop_ge, app_nil_r by lia.
Qed.

(** User code that returns a dict and touches no list. *)
Lemma UserStage_writes I depth stage_name rq pv (b : body) iterate c view
    (wrote : string → value) :
  (∀ ls, ∃ δ, b view ls = (Returns (BDict δ), ls) ∧
     ∀ key, key ∈ iterate → δ !! key = Some (wrote key)) →
  body_writes I depth (UserStage stage_name rq pv b) iterate c view wrote.
Proof.
  intros Hb σ kw HI Hkw. destruct (Hb (lists σ)) as (δ & Hbody & Hδ).
  exists (length (dicts σ)), δ, (State (lists σ) (dicts σ ++ [δ]) (trace σ)).
  split_and!; try done.
  - cbn [run]. unfold user_run.
    rewrite (bind_Ok _ _ _ _ _ (dict_read_Some _ _ _ Hkw)).
    rewrite bind_unfold, Hbody. reflexivity.
  - cbn. by rewrite lookup_app_r, Nat.sub_diag.
Qed.

Lemma IterateStage_run_writes_back_bump :
  ∃ σ' t,
    run 0 iterate_bump 0 store_3_3
      = (if _check (provides bump) two_sequences then Ok (RDict 0)
         else Raise (AssertionError (ProvisionsNotMet (name bump))), σ') ∧
    trace σ' = trace store_3_3 ++ t ∧
    at_depth 0 t
    = (λ index, EBody 0 index (view_at store_3_3 two_sequences [key_A; key_B] index))
        <$> seq 0 3 ∧
    (∀ key, key ∈ [key_A; key_B] →
       sequence σ' two_sequences key
       = Some ((λ index, bumped index key) <$> seq 0 3)) ∧
    dicts σ' !! 0 = Some two_sequences.
Proof.
  apply (IterateStage_run_writes_back (λ _, True) 0 [key_A; key_B] bump 0
           store_3_3 two_sequences 3 bumped).
  - reflexivity.
  - apply _check_spec. by vm_compute.
  - discriminate.
  - repeat constructor; eexists; (split; [by vm_compute|reflexivity]).
  - intros key1 key2 H1 H2.
    apply list_elem_of_In in H1, H2. cbn in H1, H2.
    destruct H1 as [<-|[<-|[]]], H2 as [<-|[<-|[]]]; by vm_compute.
  - exact Logic.I.
  - intros ls key l xs index v _ _ _ _. exact Logic.I.
  - intros index Hindex. apply UserStage_writes. intros ls. eexists. split; [done|].
    intros key Hkey. apply list_elem_of_In in Hkey. cbn in Hkey.
    destruct index as [|[|[|index]]]; [..|lia];
      destruct Hkey as [<-|[<-|[]]]; by vm_compute.
Defined.

(** C5 fails as the specification words it: with both keys bound to one
    list object, the write-back for [B] overwrites the one for [A]; the
    body returns 10 for [A] at every index and the sequence of [A] ends
    up holding 20. *)
Lemma IterateStage_aliased_sequences :
  (∀ view ls, return_ten_twenty view ls = (Returns (BDict ten_twenty), ls)) ∧
  ten_twenty !! key_A = Some (VInt 10) ∧
  (run 0 iterate_split 0 aliased_store).1 = Ok (RDict 0) ∧
  sequence (run 0 iterate_split 0 aliased_store).2 aliased key_A
  = Some [VInt 20; VInt 20; VInt 20].
Proof. split_and!; [done|by vm_compute..]. Qed.

Lemma subscript_None r δ key σ :
  dicts σ !! r = Some δ → δ !! key = None →
  subscript (RDict r) key σ = (Raise (KeyError key), σ).
Proof.
  intros Hr Hk. cbn [subscript].
  rewrite (bind_Ok _ _ _ _ _ (dict_read_Some _ _ _ Hr)). cbn beta.
  by rewrite Hk.
Qed.

(** The write-back loop on a result that is not a dict. *)
Lemma write_back_no_mapping name rest arrays index ret l σ :
  arrays !! name = Some l →
  match ret with RDict _ => False | _ => True end →
  write_back (name :: rest) arrays index ret σ = (Raise TypeError, σ).
Proof.
  intros Ha Hret. cbn [write_back]. rewrite Ha. by destruct ret.
Qed.

(** The write-back loop on a dict that lacks one of the keys. *)
Lemma write_back_missing_key names arrays index r δ : ∀ σ,
  dicts σ !! r = Some δ →
  (∀ key, key ∈ names →
     ∃ l ys, arrays !! key = Some l ∧ lists σ !! l = Some ys ∧ index < length ys) →
  Exists (λ key, δ !! key = None) names →
  ∃ key σ', write_back names arrays index (RDict r) σ = (Raise (KeyError key), σ') ∧
    key ∈ names.
Proof.
  induction names as [|name rest IH]; intros σ Hr Hlists Hex.
  - by apply Exists_nil in Hex.
  - destruct (Hlists name ltac:(by left)) as (l & ys & Ha & Hl & Hlt).
    cbn [write_back]. rewrite Ha.
    destruct (δ !! name) as [v|] eqn:Hname.
    + rewrite (bind_Ok _ _ _ _ _ (subscript_Some _ _ _ _ _ Hr Hname)).
      rewrite (bind_Ok _ _ _ _ _ (list_set_Some _ _ _ v _ Hl Hlt)).
      apply Exists_cons in Hex as [Hex|Hex]; [congruence|].
      destruct (IH (State (<[l := <[index := v]> ys]> (lists σ)) (dicts σ) (trace σ)))
        as (key & σ' & Hrun & Hkey); [done| |done|].
      { intros key Hkey. destruct (Hlists key ltac:(by right)) as (l' & ys' & Ha' & Hl' & Hlt').
        assert (l < length (lists σ)) by (by eapply lookup_lt_Some).
        destruct (decide (l' = l)) as [->|Hne].
        - exists l, (<[index := v]> ys). split_and!; [done|..].
          + cbn. by apply list_lookup_insert_eq.
          + rewrite length_insert. congruence.
        - exists l', ys'. split_and!; [done| |done].
          cbn. by rewrite list_lookup_insert_ne. }
      exists key, σ'. split; [done|by right].
    + exists name, σ. split; [|by left].
      by rewrite (bind_Raise _ _ _ _ _ (subscript_None _ _ _ _ Hr Hname)).
Qed.

(** ** C10: the body must return the iterated keys

    C10.  In a run of [IterateStage.run] over at least one key and
    sequences of length [L], let the body have returned a dict with every
    iterated key at the indices below [index], with [index < L], and at
    [index] return nothing, or no mapping, or a dict that lacks an
    iterated key.  Then the write-back of that turn raises, a [TypeError]
    or the [KeyError] of an iterated key, and so does the run: the
    iteration is not completed with the element left as it was. *)
Theorem IterateStage_body_must_return_keys (I : list (list value) → Prop)
    (depth : nat) (iterate : list string) (base : Stage) (kw : loc) (σ : state)
    (c : clipboard) (L : nat) (wrote : nat → string → value) (index : nat) :
  dicts σ !! kw = Some c →
  requires base ⊆ dom c →
  iterate ≠ [] →
  Forall (λ key, ∃ xs, sequence σ c key = Some xs ∧ length xs = L) iterate →
  unaliased iterate c →
  I (lists σ) → ignores_elements I iterate c →
  index < L →
  (∀ i, i < index →
     body_writes I (S depth) base iterate c (view_at σ c iterate i) (wrote i)) →
  body_comes_short I (S depth) base iterate c (view_at σ c iterate index) →
  ∃ e σ', run depth (IterateOver iterate base) kw σ = (Raise e, σ') ∧
    write_back_error iterate e.
Proof.
  intros Hkw Hreq Hne Hlen Hun HI Hign Hindex Hbody Hshort.
  cbn [run]. unfold IterateStage_run.
  rewrite (bind_Ok _ _ _ _ _ (checkRequire_Some _ _ _ _ Hkw)).
  assert (_check (requires (IterateOver iterate base)) c = true) as ->
    by (by apply _check_spec).
  cbn [negb]. rewrite bind_unfold.
  rewrite (gather_equal_length iterate iterate kw σ c L None ∅ Hkw Hlen); [|by left].
  assert (match iterate with [] => None | _ => Some L end = Some L) as ->
    by (by destruct iterate).
  cbn iota beta.
  destruct (iterations_turned I depth base iterate kw c wrote σ L index
              Hign Hun Hlen ltac:(lia)
              (turned_start I depth kw c iterate wrote σ L Hkw HI Hlen) Hbody)
    as (σ1 & Hrun1 & Hturned).
  destruct (iteration_call I depth (run (S depth) base) iterate kw c wrote σ
              index σ1 L Hlen Hindex Hturned)
    as (σ2 & kw' & Hcall & Hkw' & Hlists2 & Ht2 & Hkw2 & Hkwlt & Hkwne).
  destruct Hturned as (_ & HI1 & Hlists1 & _).
  destruct (Hshort σ2 kw') as (ret & σ3 & Hrun3 & Hkeep & Hret);
    [by rewrite Hlists2|done|].
  assert (∀ key, key ∈ iterate →
            ∃ l ys, arrays_of c iterate ∅ !! key = Some l ∧
              lists σ3 !! l = Some ys ∧ index < length ys) as Hlists3.
  { intros key Hkey. destruct (Hlists1 key Hkey) as (l & xs & Ha & Hl0 & Hl).
    rewrite Forall_forall in Hlen. destruct (Hlen key Hkey) as (xs' & Hseq & Hxs').
    assert (xs' = xs) as ->.
    { unfold sequence in Hseq. rewrite Ha in Hseq. cbn in Hseq. congruence. }
    eexists l, _. split_and!; [by apply arrays_of_iterate| |].
    - by rewrite (Hkeep key l Hkey Ha), Hlists2.
    - rewrite length_written by lia. lia. }
  assert (∃ e σ', iteration (run (S depth) base) depth iterate
                    (arrays_of c iterate ∅) kw index σ1 = (Raise e, σ') ∧
                  write_back_error iterate e) as (e & σ' & Hfail & He).
  { rewrite Hcall, (bind_Ok _ _ _ _ _ Hrun3).
    destruct ret as [|r|v].
    - destruct iterate as [|name rest]; [done|].
      destruct (Hlists3 name ltac:(by left)) as (l & ys & Ha & _).
      exists TypeError, σ3. split; [by eapply write_back_no_mapping|by left].
    - destruct Hret as (δ & Hr & key & Hkey & Hmissing).
      destruct (write_back_missing_key iterate (arrays_of c iterate ∅) index r δ σ3
                  Hr Hlists3) as (key' & σ' & Hwb & Hkey').
      { apply Exists_exists. by exists key. }
      exists (KeyError key'), σ'. split; [done|]. right. by exists key'.
    - destruct iterate as [|name rest]; [done|].
      destruct (Hlists3 name ltac:(by left)) as (l & ys & Ha & _).
      exists TypeError, σ3. split; [by eapply write_back_no_mapping|by left]. }
  exists e, σ'. split; [|done].
  replace L with (index + S (L - S index)) by lia.
  rewrite seq_app. cbn [seq plus].
  rewrite (bind_unfold (iterations _ _ _ _ _ _)), iterations_app.
  rewrite (bind_Ok _ _ _ _ _ Hrun1). cbn [iterations].
  by rewrite (bind_Raise _ _ _ _ _ Hfail).
Qed.

Lemma IgnoredStage_comes_short I depth stage_name rq pv iterate c view :
  body_comes_short I depth (IgnoredStage stage_name rq pv) iterate c view.
Proof. intros σ kw HI Hkw. by exists RNone, σ. Qed.

Lemma IterateStage_body_must_return_keys_ignored :
  ∃ e σ', run 0 iterate_ignored 0 store_3_3 = (Raise e, σ') ∧
    write_back_error [key_A; key_B] e.
Proof.
  apply (IterateStage_body_must_return_keys (λ _, True) 0 [key_A; key_B]
           (IgnoredStage "calibrate" ∅ ∅) 0 store_3_3 two_sequences 3
           (λ _ _, VNone) 0).
  - reflexivity.
  - apply _check_spec. by vm_compute.
  - discriminate.
  - repeat constructor; eexists; (split; [by vm_compute|reflexivity]).
  - intros key1 key2 H1 H2.
    apply list_elem_of_In in H1, H2. cbn in H1, H2.
    destruct H1 as [<-|[<-|[]]], H2 as [<-|[<-|[]]]; by vm_compute.
  - exact Logic.I.
  - intros ls key l xs index v _ _ _ _. exact Logic.I.
  - lia.
  - intros i Hi. lia.
  - apply IgnoredStage_comes_short.
Defined.

(** ** The order of the calls *)

Lemma upto_depth_app depth t1 t2 :
  upto_depth depth (t1 ++ t2) = upto_depth depth t1 ++ upto_depth depth t2.
Proof. apply filter_app. Qed.

Lemma upto_depth_deeper depth t :
  Forall (λ e, S depth ≤ depth_of e) t → upto_depth depth t = [].
Proof.
  unfold upto_depth. induction 1 as [|e t He _ IH]; [done|].
  rewrite filter_cons_False; [done|]. lia.
Qed.

Lemma traced_bind {A B} depth e1 e2 (m : M A) (f : A → M B) :
  traced depth e1 m → (∀ a, traced depth e2 (f a)) →
  traced depth (e1 ++ e2) (m ≫= f).
Proof.
  intros Hm Hf σ. destruct (Hm σ) as (t1 & Ht1 & Hpre1 & Hfull1).
  rewrite bind_unfold. destruct (m σ) as [[a|e] σ1]; cbn [fst snd] in *.
  - destruct (Hf a σ1) as (t2 & Ht2 & Hpre2 & Hfull2).
    exists (t1 ++ t2). rewrite Ht2, Ht1, app_assoc, upto_depth_app, fmap_app.
    rewrite (Hfull1 Logic.I). split_and!; [done|by apply prefix_app|].
    intros Hok. by rewrite (Hfull2 Hok).
  - exists t1. split_and!; [done|by apply prefix_app_r|done].
Qed.

Lemma traced_seq {A B} depth expected (m : M A) (f : A → M B) :
  traced depth [] m → (∀ a, traced depth expected (f a)) →
  traced depth expected (m ≫= f).
Proof. apply (traced_bind depth [] expected). Qed.

Lemma traced_then {A B} depth expected (m : M A) (f : A → M B) :
  traced depth expected m → (∀ a, traced depth [] (f a)) →
  traced depth expected (m ≫= f).
Proof.
  intros Hm Hf. rewrite <- (app_nil_r expected). by apply traced_bind.
Qed.

Lemma traced_quiet {A} depth (m : M A) :
  (∀ σ, trace (m σ).2 = trace σ) → traced depth [] m.
Proof.
  intros Hm σ. exists []. rewrite app_nil_r. by split_and!.
Qed.

Lemma traced_ret {A} depth (a : A) : traced depth [] (mret a).
Proof. by apply traced_quiet. Qed.

Lemma traced_raise {A} depth expected e :
  traced depth expected (raise e : M A).
Proof.
  intros σ. exists []. rewrite app_nil_r. split_and!; [done|apply prefix_nil|done].
Qed.

Lemma traced_read depth l : traced depth [] (dict_read l).
Proof.
  apply traced_quiet. intros σ. unfold dict_read. by destruct (dicts σ !! l).
Qed.

Lemma traced_alloc depth c : traced depth [] (dict_alloc c).
Proof. by apply traced_quiet. Qed.

Lemma traced_write depth l c : traced depth [] (dict_write l c).
Proof. by apply traced_quiet. Qed.

Lemma traced_list_len depth l : traced depth [] (list_len l).
Proof.
  apply traced_quiet. intros σ. unfold list_len. by destruct (lists σ !! l).
Qed.

Lemma traced_list_get depth l index : traced depth [] (list_get l index).
Proof.
  apply traced_quiet. intros σ. unfold list_get.
  destruct (lists σ !! l) as [xs|]; [|done]. by destruct (xs !! index).
Qed.

Lemma traced_list_set depth l index v : traced depth [] (list_set l index v).
Proof.
  apply traced_quiet. intros σ. unfold list_set.
  destruct (lists σ !! l) as [xs|]; [|done]. by case_decide.
Qed.

Lemma traced_emit depth ev :
  depth_of ev ≤ depth → traced depth [step_of ev] (emit ev).
Proof.
  intros Hd σ. exists [ev]. unfold upto_depth.
  rewrite filter_cons_True by done. by split_and!.
Qed.

Lemma traced_check depth (which : Stage → gset string) self l :
  traced depth [] (c ← dict_read l; mret (_check (which self) c)).
Proof.
  apply traced_seq; [apply traced_read|]. intros c. apply traced_ret.
Qed.

(** A call one step deeper is not seen at [depth]. *)
Lemma traced_run_deeper depth self kw : traced depth [] (run (S depth) self kw).
Proof.
  intros σ. destruct (run (S depth) self kw σ) as [ret σ'] eqn:Hrun.
  destruct (run_callee _ _ _ _ _ _ Hrun) as (_ & _ & (t & Ht & Hdeep) & _).
  exists t. cbn [fst snd]. rewrite (upto_depth_deeper _ _ Hdeep). by split_and!.
Qed.

Lemma traced_call_kw {A} depth expected d (f : loc → M A) :
  (∀ kw, traced depth expected (f kw)) → traced depth expected (call_kw d f).
Proof.
  intros Hf. unfold call_kw.
  apply traced_seq; [apply traced_read|]. intros c.
  apply traced_seq; [apply traced_alloc|]. intros kw. apply Hf.
Qed.

Lemma traced_run_stages depth parent stages kw :
  traced depth ((λ stage, Call (name stage)) <$> stages)
    (run_stages (run (S depth)) depth parent stages kw).
Proof.
  induction stages as [|stage rest IH]; cbn [run_stages fmap list_fmap].
  - apply traced_ret.
  - apply traced_seq; [apply (traced_check depth requires)|]. intros ok.
    destruct ok; cbn [negb]; [|apply traced_raise].
    apply (traced_bind depth [Call (name stage)]);
      [by apply (traced_emit depth (ECall depth _))|].
    intros _. apply traced_seq.
    { apply traced_call_kw. intros kw'. apply traced_run_deeper. }
    intros ret. apply traced_seq; [|intros _; apply IH].
    destruct ret as [|r|v]; [apply traced_ret| |apply traced_raise].
    apply traced_seq; [apply (traced_check depth provides)|]. intros ok.
    destruct ok; cbn [negb]; [|apply traced_raise].
    unfold dict_update. apply traced_seq; [apply traced_read|]. intros δ.
    apply traced_seq; [apply traced_read|]. intros c. apply traced_write.
Qed.

Lemma traced_MultiStage_run depth self_name stages rq pv kw :
  traced depth ((λ stage, Call (name stage)) <$> stages)
    (run depth (MultiStage self_name stages rq pv) kw).
Proof.
  cbn [run]. unfold MultiStage_run.
  apply traced_seq; [apply (traced_check depth requires)|]. intros ok.
  destruct ok; cbn [negb]; [|apply traced_raise].
  apply traced_then; [apply traced_run_stages|]. intros _. apply traced_ret.
Qed.

Lemma traced_rebind depth names arrays index clip :
  traced depth [] (rebind names arrays index clip).
Proof.
  induction names as [|name rest IH]; cbn [rebind].
  - apply traced_ret.
  - destruct (arrays !! name); [|apply traced_raise].
    apply traced_seq; [apply traced_list_get|]. intros v.
    apply traced_seq; [|intros _; apply IH].
    unfold dict_set. apply traced_seq; [apply traced_read|]. intros c.
    apply traced_write.
Qed.

Lemma traced_write_back depth names arrays index clip :
  traced depth [] (write_back names arrays index clip).
Proof.
  induction names as [|name rest IH]; cbn [write_back].
  - apply traced_ret.
  - destruct (arrays !! name); [|apply traced_raise].
    apply traced_seq.
    { destruct clip; cbn [subscript]; try apply traced_raise.
      apply traced_seq; [apply traced_read|]. intros c.
      destruct (c !! name); [apply traced_ret|apply traced_raise]. }
    intros v. apply traced_seq; [apply traced_list_set|]. intros _. apply IH.
Qed.

(** One turn of an [IterateMultiStage]: the turn, then every child. *)
Lemma traced_iteration depth self_name stages rq pv iterate arrays kw index :
  traced (S depth)
    (Turn index :: ((λ stage, Call (name stage)) <$> stages))
    (iteration (run (S depth) (MultiStage self_name stages rq pv)) depth
       iterate arrays kw index).
Proof.
  unfold iteration, dict_copy.
  apply traced_seq.
  { apply traced_seq; [apply traced_read|]. intros c. apply traced_alloc. }
  intros clip. apply traced_seq; [apply traced_rebind|]. intros _.
  apply traced_seq; [apply traced_read|]. intros view.
  apply (traced_bind (S depth) [Turn index]).
  { apply (traced_emit (S depth) (EBody depth index view)). cbn. lia. }
  intros _. apply traced_then; [|intros ret; apply traced_write_back].
  apply traced_call_kw. intros kw'. apply traced_MultiStage_run.
Qed.

Lemma traced_iterations depth self_name stages rq pv iterate arrays kw indices :
  traced (S depth)
    (index ← indices; Turn index :: ((λ stage, Call (name stage)) <$> stages))
    (iterations (run (S depth) (MultiStage self_name stages rq pv)) depth
       iterate arrays kw indices).
Proof.
  induction indices as [|index rest IH]; cbn [iterations].
  - apply traced_ret.
  - rewrite bind_cons. apply traced_bind; [apply traced_iteration|].
    intros _. apply IH.
Qed.

(** ** C4: index by index, stage by stage

    C4.  Let an [IterateMultiStage] run on a clipboard that binds the
    iterated keys to sequences of length [L].  Whatever the children do,
    the turns of its loop and the calls of its children happen in the
    interleaved order: turn 0, then every child in declared order, then
    turn 1, then every child, and so on; a run that fails stops somewhere
    in that order, a run that returns has gone through all of it. *)
Theorem IterateMultiStage_interleaves (depth : nat) (self_name : string)
    (iterate : list string) (stages : list Stage)
    (own_requires own_provides : gset string) (kw : loc) (σ : state)
    (c : clipboard) (L : nat) :
  let self := IterateMultiStage self_name iterate stages own_requires own_provides in
  dicts σ !! kw = Some c →
  Forall (λ key, ∃ xs, sequence σ c key = Some xs ∧ length xs = L) iterate →
  ∃ t, trace (run depth self kw σ).2 = trace σ ++ t ∧
    step_of <$> upto_depth (S depth) t `prefix_of` interleaved stages L ∧
    (is_ok (run depth self kw σ).1 →
       step_of <$> upto_depth (S depth) t = interleaved stages L).
Proof.
  intros self Hkw Hlen. unfold self, IterateMultiStage. cbn [run].
  unfold IterateStage_run.
  rewrite (bind_Ok _ _ _ _ _ (checkRequire_Some _ _ _ _ Hkw)).
  destruct (_check _ c); cbn [negb].
  2:{ exists []. rewrite app_nil_r. split_and!; [done|apply prefix_nil|done]. }
  rewrite bind_unfold.
  rewrite (gather_equal_length iterate iterate kw σ c L None ∅ Hkw Hlen); [|by left].
  destruct iterate as [|key rest] eqn:Hit.
  { exists []. rewrite app_nil_r. split_and!; [done|apply prefix_nil|done]. }
  rewrite <- Hit in *. cbn iota beta.
  assert (traced (S depth) (interleaved stages L)
            (iterations (run (S depth) (MultiStage self_name stages own_requires own_provides))
               depth iterate (arrays_of c iterate ∅) kw (seq 0 L) ≫=
             λ _, ok ← checkProvide (IterateOver iterate
                         (MultiStage self_name stages own_requires own_provides)) kw;
                  if negb ok
                  then raise (AssertionError (ProvisionsNotMet
                         (name (IterateOver iterate
                            (MultiStage self_name stages own_requires own_provides)))))
                  else mret (RDict kw))) as Htraced; [|apply Htraced].
  apply traced_then; [apply traced_iterations|]. intros _.
  apply traced_seq; [apply (traced_check (S depth) provides)|]. intros ok.
  destruct ok; cbn [negb]; [apply traced_ret|apply traced_raise].
Qed.

Lemma IterateMultiStage_interleaves_S1_S2 :
  step_of <$> upto_depth 1 (trace (run 0 per_element 0 store_2).2) = S1_S2_twice.
Proof.
  destruct (IterateMultiStage_interleaves 0 "per_element" [key_A]
              [stage_S1; stage_S2] ∅ ∅ 0 store_2 one_sequence 2)
    as (t & Ht & _ & Hfull).
  - reflexivity.
  - repeat constructor; eexists; (split; [by vm_compute|reflexivity]).
  - change (trace store_2 ++ t) with t in Ht.
    change (run 0 per_element 0 store_2) with
      (run 0 (IterateMultiStage "per_element" [key_A] [stage_S1; stage_S2] ∅ ∅)
         0 store_2).
    rewrite Ht. apply Hfull. by vm_compute.
Defined.

(** * What a run keeps, and how it fails *)

(** ** The checks *)

(** X1.  [checkRequire] and [checkProvide] return and leave the store as
    it is; [checkRequire] answers [True] exactly when the clipboard binds
    every key the stage requires, [checkProvide] exactly when it binds
    every key the stage provides. *)
Theorem checks_pass_iff (self : Stage) (kw : loc) (σ : state) (c : clipboard) :
  dicts σ !! kw = Some c →
  ∃ met provided,
    checkRequire self kw σ = (Ok met, σ) ∧
    checkProvide self kw σ = (Ok provided, σ) ∧
    (met = true ↔ ∀ key, key ∈ requires self → is_Some (c !! key)) ∧
    (provided = true ↔ ∀ key, key ∈ provides self → is_Some (c !! key)).
Proof.
  intros Hkw. eexists _, _.
  rewrite (checkRequire_Some _ _ _ _ Hkw), (checkProvide_Some _ _ _ _ Hkw).
  split_and!; [done|done|..]; rewrite _check_spec; split.
  - intros H key Hkey. by apply elem_of_dom, H.
  - intros H key Hkey. by apply elem_of_dom, H.
  - intros H key Hkey. by apply elem_of_dom, H.
  - intros H key Hkey. by apply elem_of_dom, H.
Qed.

Lemma checks_pass_iff_pipeline :
  ∃ met provided,
    checkRequire pipeline 0 (driver_store exposure_only)
      = (Ok met, driver_store exposure_only) ∧
    checkProvide pipeline 0 (driver_store exposure_only)
      = (Ok provided, driver_store exposure_only) ∧
    (met = true ↔ ∀ key, key ∈ requires pipeline → is_Some (exposure_only !! key)) ∧
    (provided = true
     ↔ ∀ key, key ∈ provides pipeline → is_Some (exposure_only !! key)).
Proof.
  apply (checks_pass_iff pipeline 0 (driver_store exposure_only) exposure_only).
  reflexivity.
Defined.

(** ** More on the contract of a composite *)

Lemma provides_MultiStage self_name stages rq pv :
  provides (MultiStage self_name stages rq pv) = ⋃ (provides <$> stages) ∪ pv.
Proof.
  unfold provides at 1. cbn [contract]. rewrite derive_eq. cbn [snd].
  set_solver.
Qed.

Lemma needs_app stages1 stages2 :
  needs (stages1 ++ stages2)
  = needs stages1 ∪ (needs stages2 ∖ ⋃ (provides <$> stages1)).
Proof.
  induction stages1 as [|stage rest IH]; cbn [app needs fmap list_fmap union_list foldr].
  - set_solver.
  - fold (fmap provides rest). rewrite IH. apply set_eq. intros k.
    rewrite !elem_of_union, !elem_of_difference, !elem_of_union, !elem_of_difference.
    destruct (decide (k ∈ provides stage)); naive_solver.
Qed.

Lemma provides_app (stages1 stages2 : list Stage) :
  ⋃ (provides <$> stages1 ++ stages2)
  = ⋃ (provides <$> stages1) ∪ ⋃ (provides <$> stages2).
Proof. rewrite fmap_app. apply leibniz_equiv. apply union_list_app. Qed.

(** X2.  Grouping consecutive children into a nested [MultiStage] that
    declares nothing of its own changes neither the derived requires nor
    the derived provides of the enclosing [MultiStage]. *)
Theorem MultiStage_contract_flatten (outer inner_name : string)
    (before inner after : list Stage) (own_requires own_provides : gset string) :
  requires (MultiStage outer
              (before ++ MultiStage inner_name inner ∅ ∅ :: after)
              own_requires own_provides)
  = requires (MultiStage outer (before ++ inner ++ after)
                own_requires own_provides) ∧
  provides (MultiStage outer
              (before ++ MultiStage inner_name inner ∅ ∅ :: after)
              own_requires own_provides)
  = provides (MultiStage outer (before ++ inner ++ after)
                own_requires own_provides).
Proof.
  rewrite !requires_MultiStage_needs, !provides_MultiStage.
  rewrite !needs_app, !provides_app. cbn [needs fmap list_fmap union_list foldr].
  fold (fmap provides after).
  rewrite requires_MultiStage_needs, provides_MultiStage. split.
  - apply set_eq. intros k.
    rewrite !elem_of_union, !elem_of_difference, !elem_of_union,
      !elem_of_difference, !elem_of_union.
    destruct (decide (k ∈ ⋃ (provides <$> inner))),
      (decide (k ∈ ⋃ (provides <$> before))); set_solver.
  - set_solver.
Qed.

(** X3.  A child that is an [IgnoredStage] adds nothing to the contract
    of a [MultiStage], whatever requires and provides it was built with:
    the derived sets are those of the composite without it. *)
Theorem MultiStage_contract_ignored (self_name ignored : string)
    (before after : list Stage) (rq pv own_requires own_provides : gset string) :
  requires (MultiStage self_name (before ++ IgnoredStage ignored rq pv :: after)
              own_requires own_provides)
  = requires (MultiStage self_name (before ++ after) own_requires own_provides) ∧
  provides (MultiStage self_name (before ++ IgnoredStage ignored rq pv :: after)
              own_requires own_provides)
  = provides (MultiStage self_name (before ++ after) own_requires own_provides).
Proof.
  rewrite !requires_MultiStage_needs, !provides_MultiStage.
  rewrite !needs_app, !provides_app. cbn [needs fmap list_fmap union_list foldr].
  fold (fmap provides after).
  change (requires (IgnoredStage ignored rq pv)) with (∅ : gset string).
  change (provides (IgnoredStage ignored rq pv)) with (∅ : gset string).
  split; set_solver.
Qed.

(** ** Composites of stages that honour their contract *)

Lemma UserStage_honours I depth stage_name rq pv (b : body) :
  (∀ c ls, I ls → rq ⊆ dom c →
     ∃ δ ls', b c ls = (Returns (BDict δ), ls') ∧ I ls' ∧ pv ⊆ dom δ) →
  honours I depth (UserStage stage_name rq pv b).
Proof.
  intros Hb σ kw c HI Hkw Hreq.
  destruct (Hb c _ HI Hreq) as (δ & ls' & Hbody & HI' & Hpv).
  exists (RDict (length (dicts σ))), (State ls' (dicts σ ++ [δ]) (trace σ)).
  split_and!; [|done|].
  - cbn [run]. unfold user_run.
    rewrite (bind_Ok _ _ _ _ _ (dict_read_Some _ _ _ Hkw)).
    rewrite bind_unfold, Hbody. reflexivity.
  - exists δ. split; [|done]. cbn. by rewrite lookup_app_r, Nat.sub_diag.
Qed.

Lemma IgnoredStage_honours I depth stage_name rq pv :
  honours I depth (IgnoredStage stage_name rq pv).
Proof. intros σ kw c HI Hkw Hreq. by exists RNone, σ. Qed.

(** The loop over children that honour their contracts ends, with the
    clipboard holding what it held and what the children provide. *)
Lemma run_stages_honoured I depth parent stages : ∀ kw σ c,
  Forall (honours I (S depth)) stages →
  dicts σ !! kw = Some c → I (lists σ) → needs stages ⊆ dom c →
  ∃ σ' c', run_stages (run (S depth)) depth parent stages kw σ = (Ok (), σ') ∧
    I (lists σ') ∧ dicts σ' !! kw = Some c' ∧
    dom c ∪ ⋃ (provides <$> stages) ⊆ dom c'.
Proof.
  induction stages as [|stage rest IH]; intros kw σ c Hall Hkw HI Hneeds.
  - exists σ, c. split_and!; try done. set_solver.
  - apply Forall_cons in Hall as [Hstage Hrest]. cbn [needs] in Hneeds.
    cbn [run_stages].
    rewrite (bind_Ok _ _ _ _ _ (checkRequire_Some _ _ _ _ Hkw)).
    assert (_check (requires stage) c = true) as ->
      by (apply _check_spec; clear -Hneeds; set_solver).
    cbn [negb]. rewrite bind_unfold. unfold emit at 1. cbn iota beta.
    set (σ1 := State (lists σ) (dicts σ) (trace σ ++ [ECall depth (name stage)])).
    assert (dicts σ1 !! kw = Some c) as Hkw1 by done.
    rewrite bind_unfold, (call_kw_Some _ _ _ _ Hkw1).
    set (σ2 := State (lists σ1) (dicts σ1 ++ [c]) (trace σ1)).
    destruct (Hstage σ2 (length (dicts σ1)) c) as (ret & σ3 & Hrun & HI3 & Hret).
    { done. } { cbn. by rewrite lookup_app_r, Nat.sub_diag. }
    { clear -Hneeds. set_solver. }
    rewrite Hrun. cbn iota beta.
    destruct (run_callee _ _ _ _ _ _ Hrun) as (Hlen & Hframe & _ & _).
    assert (kw < length (dicts σ)) as Hkwlt by (by eapply lookup_lt_Some).
    assert (length (dicts σ2) = S (length (dicts σ))) as Hlen2.
    { cbn. rewrite length_app. cbn. lia. }
    assert (dicts σ3 !! kw = Some c) as Hkw3.
    { rewrite Hframe; [|lia|cbn; lia]. cbn. by rewrite lookup_app_l. }
    cbn [fmap list_fmap union_list foldr]. fold (fmap provides rest).
    destruct ret as [|r|v]; [| |done].
    + rewrite bind_ret.
      destruct (IH kw σ3 c) as (σ' & c' & Hrun' & HI' & Hkw' & Hdom); try done.
      { rewrite Hret in Hneeds. clear -Hneeds. set_solver. }
      exists σ', c'. split_and!; try done. rewrite Hret. clear -Hdom. set_solver.
    + destruct Hret as (δ & Hr & Hprov).
      rewrite bind_unfold, (bind_Ok _ _ _ _ _ (checkProvide_Some _ _ _ _ Hr)).
      assert (_check (provides stage) δ = true) as -> by (by apply _check_spec).
      cbn [negb].
      rewrite (dict_update_Some _ _ _ _ _ Hr Hkw3). cbn iota beta.
      destruct (IH kw (State (lists σ3) (<[kw := δ ∪ c]> (dicts σ3)) (trace σ3)) (δ ∪ c))
        as (σ' & c' & Hrun' & HI' & Hkw' & Hdom); try done.
      { cbn. apply list_lookup_insert_eq. lia. }
      { rewrite dom_union_L. clear -Hneeds Hprov. intros k Hk.
        destruct (decide (k ∈ provides stage)); set_solver. }
      exists σ', c'. split_and!; try done.
      rewrite dom_union_L in Hdom. clear -Hdom Hprov. set_solver.
Qed.

(** X4.  Stages that honour their contract compose.  If every child,
    run on a clipboard that meets its requirements, returns a dict that
    binds every key it provides (or nothing, when it provides nothing),
    and the provides declared for the composite itself are among its own
    requires and the provides of its children, then the [MultiStage], run
    on a clipboard that meets its derived requires, returns a dict that
    binds every key of its derived provides. *)
Theorem MultiStage_honours (I : list (list value) → Prop) (depth : nat)
    (self_name : string) (stages : list Stage)
    (own_requires own_provides : gset string) :
  Forall (honours I (S depth)) stages →
  own_provides ⊆ own_requires ∪ ⋃ (provides <$> stages) →
  honours I depth (MultiStage self_name stages own_requires own_provides).
Proof.
  intros Hall Hown σ kw c HI Hkw Hreq.
  set (self := MultiStage self_name stages own_requires own_provides) in *.
  unfold self at 1. cbn [run]. unfold MultiStage_run. fold self.
  rewrite (bind_Ok _ _ _ _ _ (checkRequire_Some _ _ _ _ Hkw)).
  assert (_check (requires self) c = true) as -> by (by apply _check_spec).
  cbn [negb]. unfold self in Hreq. rewrite requires_MultiStage_needs in Hreq.
  destruct (run_stages_honoured I depth (name self) stages kw σ c)
    as (σ' & c' & Hrun & HI' & Hkw' & Hdom); try done.
  { clear -Hreq. set_solver. }
  exists (RDict kw), σ'. rewrite (bind_Ok _ _ _ _ _ Hrun). split_and!; try done.
  exists c'. split; [done|]. unfold self. rewrite provides_MultiStage.
  clear -Hdom Hown Hreq. set_solver.
Qed.

Lemma MultiStage_honours_pipeline : honours (λ _, True) 0 pipeline.
Proof.
  apply (MultiStage_honours (λ _, True) 0 "pipeline" pipeline_stages ∅ ∅).
  - repeat apply Forall_cons_2; [| | |apply Forall_nil_2].
    + apply UserStage_honours. intros c ls _ _. eexists _, ls.
      split_and!; [done|done|]. by vm_compute.
    + apply IgnoredStage_honours.
    + apply UserStage_honours. intros c ls _ _. eexists _, ls.
      split_and!; [done|done|]. by vm_compute.
  - apply empty_subseteq.
Defined.

(** ** What a run leaves of the clipboard of its call *)

Lemma keeps_ret {A} kw P (a : A) (post : A → Prop) :
  post a → keeps kw P (mret a) post.
Proof. intros Ha σ Hinv. split; [done|]. by intros ? [= <-]. Qed.

Lemma keeps_raise {A} kw P e (post : A → Prop) : keeps kw P (raise e) post.
Proof. intros σ Hinv. split; [done|]. by intros ? [=]. Qed.

Lemma keeps_bind {A B} kw P (m : M A) (f : A → M B) (mid : A → Prop)
    (post : B → Prop) :
  keeps kw P m mid → (∀ a, mid a → keeps kw P (f a) post) →
  keeps kw P (m ≫= f) post.
Proof.
  intros Hm Hf σ Hinv. destruct (Hm σ Hinv) as [Hinv' Hmid].
  rewrite bind_unfold. destruct (m σ) as [[a|e] σ']; cbn [fst snd] in *.
  - apply Hf; [by apply Hmid|done].
  - split; [done|]. by intros ? [=].
Qed.

Lemma keeps_seq {A B} kw P (m : M A) (f : A → M B) (post : B → Prop) :
  keeps kw P m (λ _, True) → (∀ a, keeps kw P (f a) post) →
  keeps kw P (m ≫= f) post.
Proof. intros Hm Hf. eapply keeps_bind; [done|]. intros a _. apply Hf. Qed.

Lemma keeps_mono {A} kw P (m : M A) (post post' : A → Prop) :
  keeps kw P m post' → (∀ a, post' a → post a) → keeps kw P m post.
Proof. intros Hm Hpost σ Hinv. destruct (Hm σ Hinv). split; auto. Qed.

(** Reading the dict [kw] itself yields bindings that satisfy [P]. *)
Lemma keeps_read kw P l : keeps kw P (dict_read l) (λ c, l = kw → P c).
Proof.
  intros σ (c & Hkw & HP). unfold dict_read.
  destruct (dicts σ !! l) as [c'|] eqn:Hl; cbn; (split; [by exists c|]);
    [|by intros ? [=]].
  intros ? [= <-] ->. congruence.
Qed.

Lemma keeps_alloc kw P c : keeps kw P (dict_alloc c) (λ l, l ≠ kw).
Proof.
  intros σ (c' & Hkw & HP). pose proof (lookup_lt_Some _ _ _ Hkw) as Hlt.
  split.
  - exists c'. split; [|done]. cbn. by apply lookup_app_l_Some.
  - cbn. intros ? [= <-]. lia.
Qed.

Lemma keeps_write kw P l c :
  l ≠ kw ∨ P c → keeps kw P (dict_write l c) (λ _, True).
Proof.
  intros Hl σ (c' & Hkw & HP). pose proof (lookup_lt_Some _ _ _ Hkw) as Hlt.
  split; [|done]. cbn. destruct (decide (l = kw)) as [->|Hne].
  - destruct Hl as [?|HPc]; [done|]. exists c. split; [|done].
    by apply list_lookup_insert_eq.
  - exists c'. split; [|done]. by rewrite list_lookup_insert_ne.
Qed.

Lemma keeps_quiet {A} kw P (m : M A) :
  (∀ σ, dicts (m σ).2 = dicts σ) → keeps kw P m (λ _, True).
Proof. intros Hm σ Hinv. by rewrite Hm. Qed.

Lemma keeps_emit kw P ev : keeps kw P (emit ev) (λ _, True).
Proof. by apply keeps_quiet. Qed.

Lemma keeps_list_len kw P l : keeps kw P (list_len l) (λ _, True).
Proof.
  apply keeps_quiet. intros σ. unfold list_len. by destruct (lists σ !! l).
Qed.

Lemma keeps_list_get kw P l index : keeps kw P (list_get l index) (λ _, True).
Proof.
  apply keeps_quiet. intros σ. unfold list_get.
  destruct (lists σ !! l) as [xs|]; [|done]. by destruct (xs !! index).
Qed.

Lemma keeps_list_set kw P l index v :
  keeps kw P (list_set l index v) (λ _, True).
Proof.
  apply keeps_quiet. intros σ. unfold list_set.
  destruct (lists σ !! l) as [xs|]; [|done]. by case_decide.
Qed.

(** A call on another keyword dict leaves [kw] alone, whatever the stage. *)
Lemma keeps_run kw P depth self kw' :
  kw' ≠ kw → keeps kw P (run depth self kw') (λ _, True).
Proof.
  intros Hne σ (c & Hkw & HP). split; [|done].
  destruct (run depth self kw' σ) as [ret σ'] eqn:Hrun.
  destruct (run_callee _ _ _ _ _ _ Hrun) as (_ & Hframe & _ & _).
  exists c. split; [|done]. cbn. rewrite Hframe; [done| |done].
  by eapply lookup_lt_Some.
Qed.

Lemma keeps_call_kw {A} kw P d (f : loc → M A) (post : A → Prop) :
  (∀ kw', kw' ≠ kw → keeps kw P (f kw') post) →
  keeps kw P (call_kw d f) post.
Proof.
  intros Hf. unfold call_kw.
  apply keeps_seq; [eapply keeps_mono; [apply keeps_read|done]|]. intros c.
  eapply keeps_bind; [apply keeps_alloc|]. intros kw' Hkw'. by apply Hf.
Qed.

Lemma keeps_check kw P (which : Stage → gset string) self l :
  keeps kw P (c ← dict_read l; mret (_check (which self) c))
    (λ ok, l = kw → ∃ c, P c ∧ ok = _check (which self) c).
Proof.
  eapply keeps_bind; [apply keeps_read|]. intros c Hc. apply keeps_ret.
  intros Hl. exists c. split; [by apply Hc|done].
Qed.

(** [MultiStage.run] only adds keys to its clipboard. *)
Lemma keeps_run_stages kw (c : clipboard) depth parent stages :
  keeps kw (λ c', dom c ⊆ dom c')
    (run_stages (run (S depth)) depth parent stages kw) (λ _, True).
Proof.
  induction stages as [|stage rest IH]; cbn [run_stages].
  - by apply keeps_ret.
  - apply keeps_seq; [eapply keeps_mono; [apply (keeps_check _ _ requires)|done]|].
    intros ok. destruct ok; cbn [negb]; [|apply keeps_raise].
    apply keeps_seq; [apply keeps_emit|]. intros _.
    apply keeps_seq.
    { apply keeps_call_kw. intros kw' Hkw'. by apply keeps_run. }
    intros ret. apply keeps_seq; [|intros _; apply IH].
    destruct ret as [|r|v]; [by apply keeps_ret| |apply keeps_raise].
    apply keeps_seq; [eapply keeps_mono; [apply (keeps_check _ _ provides)|done]|].
    intros ok. destruct ok; cbn [negb]; [|apply keeps_raise].
    unfold dict_update.
    apply keeps_seq; [eapply keeps_mono; [apply keeps_read|done]|]. intros δ.
    eapply keeps_bind; [apply keeps_read|]. intros c1 Hc1.
    apply keeps_write. right. rewrite dom_union_L.
    specialize (Hc1 eq_refl). cbn in Hc1. set_solver.
Qed.

(** X5.  A [MultiStage.run] that returns hands back the keyword dict of
    its call, and that dict still binds every key it bound when the call
    was made: the merges add and overwrite, they never remove. *)
Theorem MultiStage_run_keeps_keys (depth : nat) (self_name : string)
    (stages : list Stage) (own_requires own_provides : gset string)
    (kw : loc) (σ : state) (c : clipboard) (ret : retval) (σ' : state) :
  dicts σ !! kw = Some c →
  run depth (MultiStage self_name stages own_requires own_provides) kw σ
    = (Ok ret, σ') →
  ret = RDict kw ∧ ∃ c', dicts σ' !! kw = Some c' ∧ dom c ⊆ dom c'.
Proof.
  intros Hkw Hrun.
  assert (keeps kw (λ c', dom c ⊆ dom c')
            (run depth (MultiStage self_name stages own_requires own_provides) kw)
            (λ ret, ret = RDict kw)) as Hkeeps.
  { cbn [run]. unfold MultiStage_run.
    apply keeps_seq; [eapply keeps_mono; [apply (keeps_check _ _ requires)|done]|].
    intros ok. destruct ok; cbn [negb]; [|apply keeps_raise].
    apply keeps_seq; [apply keeps_run_stages|]. intros _. by apply keeps_ret. }
  destruct (Hkeeps σ) as [Hinv Hret]; [by exists c|].
  rewrite Hrun in *. cbn [fst snd] in *. split; [by apply Hret|done].
Qed.

Lemma MultiStage_run_keeps_keys_pipeline :
  ∃ ret σ', run 0 pipeline 0 (driver_store exposure_only) = (Ok ret, σ') ∧
    ret = RDict 0 ∧
    ∃ c', dicts σ' !! 0 = Some c' ∧ dom exposure_only ⊆ dom c'.
Proof.
  eexists _, _. split; [by vm_compute|].
  apply (MultiStage_run_keeps_keys 0 "pipeline" pipeline_stages ∅ ∅ 0
           (driver_store exposure_only) exposure_only).
  - reflexivity.
  - by vm_compute.
Defined.

Lemma keeps_gather kw P iterate names l length arrays :
  keeps kw P (gather iterate names l length arrays) (λ _, True).
Proof.
  revert length arrays. induction names as [|name rest IH]; intros length arrays;
    cbn [gather].
  - by apply keeps_ret.
  - apply keeps_seq; [eapply keeps_mono; [apply keeps_read|done]|]. intros c.
    destruct (c !! name) as [[| | |array]|]; try apply keeps_raise.
    apply keeps_seq; [apply keeps_list_len|]. intros len.
    destruct length; [case_decide; [apply keeps_raise|]|]; apply IH.
Qed.

Lemma keeps_rebind kw P names arrays index clip :
  clip ≠ kw → keeps kw P (rebind names arrays index clip) (λ _, True).
Proof.
  intros Hclip. induction names as [|name rest IH]; cbn [rebind].
  - by apply keeps_ret.
  - destruct (arrays !! name); [|apply keeps_raise].
    apply keeps_seq; [apply keeps_list_get|]. intros v.
    apply keeps_seq; [|intros _; apply IH].
    unfold dict_set.
    apply keeps_seq; [eapply keeps_mono; [apply keeps_read|done]|]. intros c.
    apply keeps_write. by left.
Qed.

Lemma keeps_write_back kw P names arrays index clip :
  keeps kw P (write_back names arrays index clip) (λ _, True).
Proof.
  induction names as [|name rest IH]; cbn [write_back].
  - by apply keeps_ret.
  - destruct (arrays !! name); [|apply keeps_raise].
    apply keeps_seq.
    { destruct clip; cbn [subscript]; try apply keeps_raise.
      apply keeps_seq; [eapply keeps_mono; [apply keeps_read|done]|]. intros c.
      destruct (c !! name); [by apply keeps_ret|apply keeps_raise]. }
    intros v. apply keeps_seq; [apply keeps_list_set|]. intros _. apply IH.
Qed.

(** The loop of [IterateStage.run] never writes the clipboard of the
    call: it works on copies. *)
Lemma keeps_iterations kw P depth base iterate arrays indices :
  keeps kw P (iterations (run (S depth) base) depth iterate arrays kw indices)
    (λ _, True).
Proof.
  induction indices as [|index rest IH]; cbn [iterations].
  - by apply keeps_ret.
  - apply keeps_seq; [|intros _; apply IH]. unfold iteration, dict_copy.
    eapply keeps_bind.
    { apply keeps_seq; [eapply keeps_mono; [apply keeps_read|done]|]. intros c.
      apply keeps_alloc. }
    intros clip Hclip. cbn beta in Hclip.
    apply keeps_seq; [by apply keeps_rebind|]. intros _.
    apply keeps_seq; [eapply keeps_mono; [apply keeps_read|done]|]. intros view.
    apply keeps_seq; [apply keeps_emit|]. intros _.
    apply keeps_seq; [|intros ret; apply keeps_write_back].
    apply keeps_call_kw. intros kw' Hkw'. by apply keeps_run.
Qed.

Lemma keeps_IterateStage_run kw c depth iterate base :
  keeps kw (λ c', c' = c) (run depth (IterateOver iterate base) kw)
    (λ ret, ret = RDict kw ∧ requires base ⊆ dom c ∧ provides base ⊆ dom c).
Proof.
  cbn [run]. unfold IterateStage_run.
  eapply keeps_bind; [apply (keeps_check _ _ requires)|]. intros ok Hok.
  destruct (Hok eq_refl) as (c1 & -> & ->).
  destruct (_check _ c) eqn:Hreq; cbn [negb]; [|apply keeps_raise].
  apply keeps_seq; [apply keeps_gather|]. intros [[length|] arrays];
    [|apply keeps_raise].
  apply keeps_seq; [apply keeps_iterations|]. intros _.
  eapply keeps_bind; [apply (keeps_check _ _ provides)|]. intros ok' Hok'.
  destruct (Hok' eq_refl) as (c1 & -> & ->).
  destruct (_check (provides _) c) eqn:Hprov; cbn [negb]; [|apply keeps_raise].
  apply keeps_ret. split_and!; [done|by apply _check_spec..].
Qed.

(** X7.  An [IterateStage.run] that returns hands back the keyword dict
    of its call with the bindings it had when the call was made (the loop
    works on copies and writes into the iterated lists only); that
    clipboard met the requires and the provides of the stage from the
    start. *)
Theorem IterateStage_run_returns_incoming (depth : nat) (iterate : list string)
    (base : Stage) (kw : loc) (σ : state) (c : clipboard) (ret : retval)
    (σ' : state) :
  dicts σ !! kw = Some c →
  run depth (IterateOver iterate base) kw σ = (Ok ret, σ') →
  ret = RDict kw ∧ dicts σ' !! kw = Some c ∧
  requires (IterateOver iterate base) ⊆ dom c ∧
  provides (IterateOver iterate base) ⊆ dom c.
Proof.
  intros Hkw Hrun.
  destruct (keeps_IterateStage_run kw c depth iterate base σ)
    as [(c1 & Hkw' & ->) Hret]; [by exists c|].
  rewrite Hrun in *. cbn [fst snd] in *.
  destruct (Hret ret eq_refl) as (-> & ? & ?). by split_and!.
Qed.

Lemma IterateStage_run_returns_incoming_echo :
  ∃ ret σ', run 0 iterate_echo 0 store_3_3 = (Ok ret, σ') ∧
    ret = RDict 0 ∧ dicts σ' !! 0 = Some two_sequences ∧
    requires iterate_echo ⊆ dom two_sequences ∧
    provides iterate_echo ⊆ dom two_sequences.
Proof.
  eexists _, _. split; [by vm_compute|].
  apply (IterateStage_run_returns_incoming 0 [key_A; key_B] echo 0 store_3_3
           two_sequences).
  - reflexivity.
  - by vm_compute.
Defined.

(** X8.  [IterateStage.run] never merges what the per-element runs
    return into the clipboard of the call.  So an [IterateMultiStage] with
    a child that provides a key the incoming clipboard does not bind never
    returns: the final [checkProvide] looks for that key in the clipboard
    of the call. *)
Theorem IterateMultiStage_new_provision_fails (depth : nat)
    (self_name : string) (iterate : list string) (stages : list Stage)
    (own_requires own_provides : gset string) (kw : loc) (σ : state)
    (c : clipboard) (stage : Stage) (key : string) :
  dicts σ !! kw = Some c →
  stage ∈ stages → key ∈ provides stage → c !! key = None →
  ¬ is_ok (run depth (IterateMultiStage self_name iterate stages
                        own_requires own_provides) kw σ).1.
Proof.
  intros Hkw Hstage Hkey Hnone Hok.
  destruct (keeps_IterateStage_run kw c depth iterate
              (MultiStage self_name stages own_requires own_provides) σ)
    as [_ Hret]; [by exists c|].
  unfold IterateMultiStage in Hok.
  destruct (run depth (IterateOver iterate _) kw σ).1 as [ret|e]; [|done].
  destruct (Hret ret eq_refl) as (_ & _ & Hprov).
  rewrite provides_MultiStage in Hprov.
  assert (key ∈ dom c) as Hin.
  { apply Hprov, elem_of_union_l, elem_of_union_list.
    exists (provides stage). split; [|done]. by apply list_elem_of_fmap_2. }
  apply elem_of_dom in Hin as [v Hv]. congruence.
Qed.

Lemma IterateMultiStage_new_provision_fails_flux :
  ¬ is_ok (run 0 (IterateMultiStage "per_element" [key_A] [stage_S1; stage_flux]
                    ∅ ∅) 0 store_2).1.
Proof.
  apply (IterateMultiStage_new_provision_fails 0 "per_element" [key_A]
           [stage_S1; stage_flux] ∅ ∅ 0 store_2 one_sequence stage_flux "flux").
  - reflexivity.
  - apply list_elem_of_In. cbn. tauto.
  - by vm_compute.
  - reflexivity.
Defined.

(** ** Failures of the first loop of [IterateStage.run] *)

Lemma gather_app iterate names1 names2 kw : ∀ length arrays σ,
  gather iterate (names1 ++ names2) kw length arrays σ
  = (gather iterate names1 kw length arrays ≫=
       λ '(length', arrays'), gather iterate names2 kw length' arrays') σ.
Proof.
  induction names1 as [|name rest IH]; intros length arrays σ; [done|].
  cbn [app gather]. rewrite !bind_unfold.
  destruct (dict_read kw σ) as [[c|e] σ1]; [|done].
  destruct (c !! name) as [[| | |array]|]; try done.
  rewrite !bind_unfold. destruct (list_len array σ1) as [[n|e] σ2]; [|done].
  destruct length as [len|].
  - case_decide; [done|]. by rewrite IH, bind_unfold.
  - by rewrite IH, bind_unfold.
Qed.

(** The first loop stops at the first key it cannot use, before anything
    has been changed. *)
Lemma gather_stops iterate before key after kw σ c L e :
  dicts σ !! kw = Some c →
  Forall (λ key, ∃ xs, sequence σ c key = Some xs ∧ length xs = L) before →
  fetch_error c key = Some e →
  gather iterate (before ++ key :: after) kw None ∅ σ = (Raise e, σ).
Proof.
  intros Hkw Hbefore Herr. rewrite gather_app.
  rewrite (bind_Ok _ _ _ _ _
             (gather_equal_length iterate before kw σ c L None ∅ Hkw Hbefore
                ltac:(by left))).
  cbn [gather]. rewrite (bind_Ok _ _ _ _ _ (dict_read_Some _ _ _ Hkw)).
  cbn beta. unfold fetch_error in Herr.
  destruct (c !! key) as [[| | |array]|]; by simplify_eq.
Qed.

Lemma IterateStage_run_gather depth iterate base kw σ c :
  dicts σ !! kw = Some c → requires base ⊆ dom c →
  run depth (IterateOver iterate base) kw σ
  = ('(length, arrays) ← gather iterate iterate kw None ∅;
     match length with
     | None => raise TypeError
     | Some length =>
         iterations (run (S depth) base) depth iterate arrays kw (seq 0 length);;
         ok ← checkProvide (IterateOver iterate base) kw;
         if negb ok
         then raise (AssertionError (ProvisionsNotMet (name (IterateOver iterate base))))
         else mret (RDict kw)
     end) σ.
Proof.
  intros Hkw Hreq. cbn [run]. unfold IterateStage_run.
  rewrite (bind_Ok _ _ _ _ _ (checkRequire_Some _ _ _ _ Hkw)).
  assert (_check (requires (IterateOver iterate base)) c = true) as ->
    by (by apply _check_spec).
  done.
Qed.

Lemma IterateStage_run_stops depth before key after base kw σ c L e :
  dicts σ !! kw = Some c →
  requires base ⊆ dom c →
  Forall (λ key, ∃ xs, sequence σ c key = Some xs ∧ length xs = L) before →
  fetch_error c key = Some e →
  run depth (IterateOver (before ++ key :: after) base) kw σ = (Raise e, σ).
Proof.
  intros Hkw Hreq Hbefore Herr.
  rewrite (IterateStage_run_gather _ _ _ _ _ _ Hkw Hreq).
  apply bind_Raise. by eapply gather_stops.
Qed.

(** X9.  If the clipboard meets the requirements but does not bind one
    of the iterated keys, and the iterated keys before it are bound to
    sequences of one length, [IterateStage.run] raises the [KeyError] for
    that key, before any element is processed: the store is unchanged. *)
Theorem IterateStage_missing_key (depth : nat) (before after : list string)
    (key : string) (base : Stage) (kw : loc) (σ : state) (c : clipboard)
    (L : nat) :
  dicts σ !! kw = Some c →
  requires base ⊆ dom c →
  Forall (λ key, ∃ xs, sequence σ c key = Some xs ∧ length xs = L) before →
  c !! key = None →
  run depth (IterateOver (before ++ key :: after) base) kw σ
  = (Raise (KeyError key), σ).
Proof.
  intros Hkw Hreq Hbefore Hkey. eapply IterateStage_run_stops; [done..|].
  unfold fetch_error. by rewrite Hkey.
Qed.

Lemma IterateStage_missing_key_C :
  run 0 (IterateOver ([key_A] ++ "C" :: [key_B]) echo) 0 store_3_4
  = (Raise (KeyError "C"), store_3_4).
Proof.
  apply (IterateStage_missing_key 0 [key_A] [key_B] "C" echo 0 store_3_4
           two_sequences 3).
  - reflexivity.
  - apply _check_spec. by vm_compute.
  - repeat constructor. eexists. split; [by vm_compute|reflexivity].
  - reflexivity.
Defined.



(** X11.  With an empty list of keys to iterate over, [IterateStage.run]
    raises a [TypeError] once the requirements are met: [length] is still
    [None] when [range(length)] is evaluated.  Nothing is changed. *)
Theorem IterateStage_no_keys (depth : nat) (base : Stage) (kw : loc)
    (σ : state) (c : clipboard) :
  dicts σ !! kw = Some c →
  requires base ⊆ dom c →
  run depth (IterateOver [] base) kw σ = (Raise TypeError, σ).
Proof.
  intros Hkw Hreq. by rewrite (IterateStage_run_gather _ _ _ _ _ _ Hkw Hreq).
Qed.

Lemma IterateStage_no_keys_echo :
  run 0 (IterateOver [] echo) 0 store_3_4 = (Raise TypeError, store_3_4).
Proof.
  apply (IterateStage_no_keys 0 echo 0 store_3_4 two_sequences).
  - reflexivity.
  - apply _check_spec. by vm_compute.
Defined.

(** X14.  [BaseStage.__init__] wraps a lone string given for [requires]
    in a list, [IterateStage.__init__] stores [iterate] as given.  An
    [IterateStage] built with one key of several characters for both
    therefore passes [checkRequire] on a clipboard that binds the key,
    and then looks up the first character of the key: if the clipboard
    does not bind that character, [run] raises the [KeyError] for it. *)
Theorem IterateStage_one_key_is_split (depth : nat) (stage_name : string)
    (first : Ascii.ascii) (rest : string) (provides : keys_arg)
    (kw : loc) (σ : state) (c : clipboard) :
  let key := String first rest in
  dicts σ !! kw = Some c →
  is_Some (c !! key) →
  c !! String first EmptyString = None →
  run depth (IterateStage_init stage_name (OneKey key) (OneKey key) provides) kw σ
  = (Raise (KeyError (String first EmptyString)), σ).
Proof.
  intros key Hkw Hkey Hfirst.
  unfold IterateStage_init, IterateStage. cbn [names_in characters].
  apply (IterateStage_run_stops depth [] (String first EmptyString)
           (characters rest) _ kw σ c 0); try done.
  - change (requires _) with ({[key]} : gset string).
    apply singleton_subseteq_l. by apply elem_of_dom.
  - unfold fetch_error. by rewrite Hfirst.
Qed.

Lemma IterateStage_one_key_is_split_AB :
  run 0 (IterateStage_init "each" (OneKey "AB") (OneKey "AB") NoKeys) 0
    store_whole_key
  = (Raise (KeyError "A"), store_whole_key).
Proof.
  apply (IterateStage_one_key_is_split 0 "each"
           (Ascii.Ascii true false false false false false true false) "B" NoKeys 0
           store_whole_key whole_key).
  - reflexivity.
  - by eexists.
  - reflexivity.
Defined.

(** ** Exceptions of a child or of the body *)

Lemma UserStage_raises I depth stage_name rq pv (b : body) c what :
  (∀ ls, I ls → ∃ ls', b c ls = (Raises what, ls')) →
  child_raises I depth (UserStage stage_name rq pv b) c (UserError what).
Proof.
  intros Hb σ kw HI Hkw. destruct (Hb _ HI) as (ls' & Hbody).
  exists (State ls' (dicts σ) (trace σ)).
  cbn [run]. unfold user_run.
  rewrite (bind_Ok _ _ _ _ _ (dict_read_Some _ _ _ Hkw)).
  rewrite bind_unfold, Hbody. reflexivity.
Qed.

Lemma run_stages_app depth parent stages1 stages2 kw σ :
  run_stages (run (S depth)) depth parent (stages1 ++ stages2) kw σ
  = (run_stages (run (S depth)) depth parent stages1 kw ≫=
       λ _, run_stages (run (S depth)) depth parent stages2 kw) σ.
Proof.
  revert σ. induction stages1 as [|stage rest IH]; intros σ; [done|].
  cbn [app run_stages]. rewrite !bind_unfold.
  destruct (checkRequire stage kw σ) as [[ok|e] σ1]; [|done].
  destruct ok; cbn [negb]; [|done].
  rewrite !bind_unfold. destruct (emit _ σ1) as [[[]|e] σ2]; [|done].
  rewrite !bind_unfold. destruct (call_kw kw (run (S depth) stage) σ2) as [[ret|e] σ3];
    [|done].
  rewrite !bind_unfold.
  destruct (match ret with
            | RNone => mret ()
            | RDict r =>
                ok ← checkProvide stage r;
                if negb ok
                then raise (AssertionError (ProvisionsNotMetWithin (name stage) parent))
                else dict_update kw r
            | ROther _ => raise TypeError
            end σ3) as [[[]|e] σ4]; [|done].
  by rewrite IH, bind_unfold.
Qed.

(** X6.  An exception of a child goes through [MultiStage.run]
    unchanged.  If the children before it return their deltas and pass
    the checks, and the next child raises [e] on the clipboard merged so
    far, then the run raises [e]; the children up to the failing one have
    been called once each, in declared order, and none after it. *)
Theorem MultiStage_run_propagates (I : list (list value) → Prop) (depth : nat)
    (self_name : string) (before after : list Stage) (failing : Stage)
    (own_requires own_provides : gset string)
    (deltas : list (option clipboard)) (kw : loc) (σ : state)
    (c c1 : clipboard) (e : exn) :
  let self := MultiStage self_name (before ++ failing :: after)
                own_requires own_provides in
  dicts σ !! kw = Some c → I (lists σ) →
  requires self ⊆ dom c →
  children_return I (S depth) before deltas c →
  spec_stages self_name before deltas c = Ok c1 →
  requires failing ⊆ dom c1 →
  child_raises I (S depth) failing c1 e →
  ∃ σ' t, run depth self kw σ = (Raise e, σ') ∧
    trace σ' = trace σ ++ t ∧
    at_depth depth t
    = (λ stage, ECall depth (name stage)) <$> (before ++ [failing]).
Proof.
  intros self Hkw HI Hreq Hbefore Hspec Hreq1 Hraises.
  unfold self at 1. cbn [run]. unfold MultiStage_run. fold self.
  rewrite (bind_Ok _ _ _ _ _ (checkRequire_Some _ _ _ _ Hkw)).
  assert (_check (requires self) c = true) as -> by (by apply _check_spec).
  cbn [negb]. change (name self) with self_name.
  destruct (run_stages_spec I depth self_name before deltas kw σ c Hkw HI Hbefore)
    as (σ1 & Hrun1 & HI1 & Hlen1 & _ & (t1 & Ht1 & _ & Hcalls) & Hfinal).
  rewrite Hspec in *. destruct (Hfinal c1 eq_refl) as [Hkw1 _].
  rewrite bind_unfold, run_stages_app, (bind_Ok _ _ _ _ _ Hrun1).
  cbn [run_stages].
  rewrite (bind_Ok _ _ _ _ _ (checkRequire_Some _ _ _ _ Hkw1)).
  assert (_check (requires failing) c1 = true) as -> by (by apply _check_spec).
  cbn [negb]. rewrite bind_unfold. unfold emit at 1. cbn iota beta.
  set (σ2 := State (lists σ1) (dicts σ1) (trace σ1 ++ [ECall depth (name failing)])).
  assert (dicts σ2 !! kw = Some c1) as Hkw2 by done.
  rewrite bind_unfold, (call_kw_Some _ _ _ _ Hkw2).
  destruct (Hraises (State (lists σ2) (dicts σ2 ++ [c1]) (trace σ2))
              (length (dicts σ2))) as (σ3 & Hrun3).
  { done. } { cbn. by rewrite lookup_app_r, Nat.sub_diag. }
  rewrite Hrun3.
  destruct (run_callee _ _ _ _ _ _ Hrun3) as (_ & _ & (t3 & Ht3 & Hdeep) & _).
  exists σ3, (t1 ++ [ECall depth (name failing)] ++ t3). split_and!; [done|..].
  - rewrite Ht3. cbn. rewrite Ht1. by rewrite <- !app_assoc.
  - rewrite !at_depth_app, (Hcalls c1 eq_refl), (at_depth_deeper _ _ Hdeep).
    rewrite at_depth_here by done. by rewrite app_nil_r, fmap_app.
Qed.

Lemma MultiStage_run_propagates_measure :
  ∃ σ' t,
    run 0 (MultiStage "pipeline" ([detect; calibrate] ++ measure_fails :: [measure])
             ∅ ∅) 0 (driver_store exposure_only)
    = (Raise (UserError "no flux"), σ') ∧
    trace σ' = trace (driver_store exposure_only) ++ t ∧
    at_depth 0 t
    = (λ stage, ECall 0 (name stage)) <$> ([detect; calibrate] ++ [measure_fails]).
Proof.
  apply (MultiStage_run_propagates (λ _, True) 0 "pipeline" [detect; calibrate]
           [measure] measure_fails ∅ ∅ [Some {["sources" := VInt 7]}; None] 0
           (driver_store exposure_only) exposure_only
           ({["sources" := VInt 7]} ∪ exposure_only)).
  - reflexivity.
  - exact Logic.I.
  - apply _check_spec. by vm_compute.
  - cbn [children_return]. split_and!; [| |exact Logic.I].
    + apply UserStage_returns. intros ls _. by exists ls.
    + apply IgnoredStage_returns.
  - by vm_compute.
  - apply _check_spec. by vm_compute.
  - apply UserStage_raises. intros ls _. by exists ls.
Defined.

(** X12.  An exception of the body stops the loop of [IterateStage.run].
    Let the iterated keys be bound to unaliased sequences of length [L],
    let the body return a dict with every iterated key on the views of
    the indices below [index], and raise [e] on the view of [index].
    Then the run raises [e], and the body has been invoked on the views
    of the indices [0] to [index], in this order, and on no other. *)
Theorem IterateStage_run_propagates (I : list (list value) → Prop)
    (depth : nat) (iterate : list string) (base : Stage) (kw : loc) (σ : state)
    (c : clipboard) (L : nat) (wrote : nat → string → value) (index : nat)
    (e : exn) :
  dicts σ !! kw = Some c →
  requires base ⊆ dom c →
  iterate ≠ [] →
  Forall (λ key, ∃ xs, sequence σ c key = Some xs ∧ length xs = L) iterate →
  unaliased iterate c →
  I (lists σ) → ignores_elements I iterate c →
  index < L →
  (∀ i, i < index →
     body_writes I (S depth) base iterate c (view_at σ c iterate i) (wrote i)) →
  child_raises I (S depth) base (view_at σ c iterate index) e →
  ∃ σ' t, run depth (IterateOver iterate base) kw σ = (Raise e, σ') ∧
    trace σ' = trace σ ++ t ∧
    at_depth depth t
    = (λ i, EBody depth i (view_at σ c iterate i)) <$> seq 0 (S index).
Proof.
  intros Hkw Hreq Hne Hlen Hun HI Hign Hindex Hbody Hraises.
  rewrite (IterateStage_run_gather _ _ _ _ _ _ Hkw Hreq).
  rewrite bind_unfold.
  rewrite (gather_equal_length iterate iterate kw σ c L None ∅ Hkw Hlen); [|by left].
  assert (match iterate with [] => None | _ => Some L end = Some L) as ->
    by (by destruct iterate).
  cbn iota beta.
  destruct (iterations_turned I depth base iterate kw c wrote σ L index
              Hign Hun Hlen ltac:(lia)
              (turned_start I depth kw c iterate wrote σ L Hkw HI Hlen) Hbody)
    as (σ1 & Hrun1 & Hturned).
  destruct (iteration_call I depth (run (S depth) base) iterate kw c wrote σ
              index σ1 L Hlen Hindex Hturned)
    as (σ2 & kw' & Hcall & Hkw' & Hlists2 & Ht2 & _).
  destruct Hturned as (_ & HI1 & _ & t1 & Ht1 & Hevents).
  destruct (Hraises σ2 kw') as (σ3 & Hrun3); [by rewrite Hlists2|done|].
  destruct (run_callee _ _ _ _ _ _ Hrun3) as (_ & _ & (t3 & Ht3 & Hdeep) & _).
  exists σ3, (t1 ++ [EBody depth index (view_at σ c iterate index)] ++ t3).
  split_and!.
  - replace L with (index + S (L - S index)) by lia.
    rewrite seq_app. cbn [seq plus].
    rewrite (bind_unfold (iterations _ _ _ _ _ _)), iterations_app.
    rewrite (bind_Ok _ _ _ _ _ Hrun1). cbn [iterations].
    assert (iteration (run (S depth) base) depth iterate (arrays_of c iterate ∅)
              kw index σ1 = (Raise e, σ3)) as Hfail
      by (rewrite Hcall; by apply bind_Raise).
    by rewrite (bind_Raise _ _ _ _ _ Hfail).
  - rewrite Ht3, Ht2, Ht1. by rewrite <- !app_assoc.
  - rewrite !at_depth_app, Hevents, (at_depth_deeper _ _ Hdeep), app_nil_r.
    rewrite at_depth_here by done. by rewrite seq_S, fmap_app.
Qed.

Lemma IterateStage_run_propagates_picky :
  ∃ σ' t,
    run 0 (IterateOver [key_A; key_B] picky) 0 store_3_3
    = (Raise (UserError "two"), σ') ∧
    trace σ' = trace store_3_3 ++ t ∧
    at_depth 0 t
    = (λ i, EBody 0 i (view_at store_3_3 two_sequences [key_A; key_B] i))
        <$> seq 0 2.
Proof.
  apply (IterateStage_run_propagates (λ _, True) 0 [key_A; key_B] picky 0
           store_3_3 two_sequences 3
           (λ i key, if decide (key = key_A) then VInt 1 else VInt 4) 1
           (UserError "two")).
  - reflexivity.
  - apply _check_spec. by vm_compute.
  - discriminate.
  - repeat constructor; eexists; (split; [by vm_compute|reflexivity]).
  - intros key1 key2 H1 H2.
    apply list_elem_of_In in H1, H2. cbn in H1, H2.
    destruct H1 as [<-|[<-|[]]], H2 as [<-|[<-|[]]]; by vm_compute.
  - exact Logic.I.
  - intros ls key l xs index v _ _ _ _. exact Logic.I.
  - lia.
  - intros i Hi. assert (i = 0) as -> by lia.
    apply UserStage_writes. intros ls. eexists. split; [by vm_compute|].
    intros key Hkey. apply list_elem_of_In in Hkey. cbn in Hkey.
    destruct Hkey as [<-|[<-|[]]]; by vm_compute.
  - apply UserStage_raises. intros ls _. exists ls. by vm_compute.
Defined.

(** X13.  An [IterateStage] that is not combined with a class that
    supplies [run] cannot process an element: over sequences of a common
    length that is not zero, the run invokes [BaseStage.run] on the view
    of index [0] and raises its [NotImplementedError].  The lists and the
    clipboard of the call are as before. *)
Theorem IterateStage_run_not_implemented (depth : nat) (stage_name : string)
    (iterate : list string) (rq pv : gset string) (kw : loc) (σ : state)
    (c : clipboard) (L : nat) :
  dicts σ !! kw = Some c →
  rq ⊆ dom c →
  iterate ≠ [] →
  Forall (λ key, ∃ xs, sequence σ c key = Some xs ∧ length xs = L) iterate →
  0 < L →
  ∃ σ', run depth (IterateStage stage_name iterate rq pv) kw σ
        = (Raise NotImplementedError, σ') ∧
    lists σ' = lists σ ∧ dicts σ' !! kw = Some c ∧
    trace σ' = trace σ ++ [EBody depth 0 (view_at σ c iterate 0)].
Proof.
  intros Hkw Hreq Hne Hlen HL. unfold IterateStage.
  rewrite (IterateStage_run_gather depth iterate (BaseStage stage_name rq pv)
             kw σ c Hkw Hreq).
  rewrite bind_unfold.
  rewrite (gather_equal_length iterate iterate kw σ c L None ∅ Hkw Hlen); [|by left].
  assert (match iterate with [] => None | _ => Some L end = Some L) as ->
    by (by destruct iterate).
  cbn iota beta.
  destruct (iteration_call (λ _, True) depth
              (run (S depth) (BaseStage stage_name rq pv)) iterate kw c
              (λ _ _, VNone) σ 0 σ L Hlen HL
              (turned_start _ depth kw c iterate _ σ L Hkw Logic.I Hlen))
    as (σ1 & kw' & Hcall & _ & Hlists & Ht & Hkw1 & _).
  exists σ1. split_and!; [|done..].
  destruct L as [|L]; [lia|]. cbn [seq iterations].
  assert (iteration (run (S depth) (BaseStage stage_name rq pv)) depth iterate
            (arrays_of c iterate ∅) kw 0 σ = (Raise NotImplementedError, σ1))
    as Hfail by (by rewrite Hcall).
  rewrite (bind_unfold (_ ;; _)), (bind_Raise _ _ _ _ _ Hfail). done.
Qed.

Lemma IterateStage_run_not_implemented_A_B :
  ∃ σ', run 0 (IterateStage "each" [key_A; key_B] ∅ ∅) 0 store_3_3
        = (Raise NotImplementedError, σ') ∧
    lists σ' = lists store_3_3 ∧ dicts σ' !! 0 = Some two_sequences ∧
    trace σ' = trace store_3_3
               ++ [EBody 0 0 (view_at store_3_3 two_sequences [key_A; key_B] 0)].
Proof.
  apply (IterateStage_run_not_implemented 0 "each" [key_A; key_B] ∅ ∅ 0
           store_3_3 two_sequences 3).
  - reflexivity.
  - apply empty_subseteq.
  - discriminate.
  - repeat constructor; eexists; (split; [by vm_compute|reflexivity]).
  - lia.
Defined.

(** * Properties of the table of matched sources *)

Lemma row_values {X} (self : gmap string (list X)) ks i : ∀ values values',
  row self ks i values = inr values' →
  (∀ k, k ∈ ks → ∃ array x, self !! k = Some array ∧
                   array_index array i = Some x ∧ values' !! k = Some x) ∧
  (∀ k, k ∉ ks → values' !! k = values !! k).
Proof.
  induction ks as [|k0 rest IH]; intros values values' Hrow; cbn [row] in Hrow.
  - injection Hrow as <-. split; [|done]. intros k Hk. by apply elem_of_nil in Hk.
  - unfold column in Hrow. destruct (self !! k0) as [array|] eqn:Hk0; [|done].
    destruct (array_index array i) as [x|] eqn:Hx; [|done].
    destruct (IH _ _ Hrow) as [Hin Hout]. split.
    + intros k [->|Hk]%elem_of_cons; [|by apply Hin].
      destruct (decide (k0 ∈ rest)) as [Hrest|Hrest]; [by apply Hin|].
      exists array, x. split_and!; [done|done|].
      by rewrite Hout, lookup_insert_eq.
    + intros k Hk. apply not_elem_of_cons in Hk as [Hne Hk].
      by rewrite Hout, lookup_insert_ne.
Qed.

(** X15.  A row agrees with the columns.  If [self[i]] returns for an
    int [i], then for every key of [self.keys] the column [self[key]] is
    there, [i] is a valid index of it, and the row binds the key to the
    element of the column at [i]; the row binds no other key. *)
Theorem getitem_row_agrees_with_columns {X} (self : gmap string (list X))
    (i : Z) (values : gmap string X) :
  __getitem__ self (KInt i) = inr (Values values) →
  (∀ k, k ∈ keys →
     ∃ array x, __getitem__ self (KStr k) = inr (Array array) ∧
       array_index array i = Some x ∧ values !! k = Some x) ∧
  (∀ k, k ∉ keys → values !! k = None).
Proof.
  cbn [__getitem__]. destruct (row self keys i ∅) as [e|values'] eqn:Hrow; [done|].
  intros [= ->]. destruct (row_values _ _ _ _ _ Hrow) as [Hin Hout]. split.
  - intros k Hk. destruct (Hin k Hk) as (array & x & Hself & Hx & Hv).
    exists array, x. split_and!; [|done|done].
    rewrite decide_True by done. unfold column. by rewrite Hself.
  - intros k Hk. by rewrite Hout.
Qed.

Lemma getitem_row_agrees_with_columns_two_rows :
  ∃ values, __getitem__ two_rows (KInt 1) = inr (Values values) ∧
    (∀ k, k ∈ keys →
       ∃ array x, __getitem__ two_rows (KStr k) = inr (Array array) ∧
         array_index array 1 = Some x ∧ values !! k = Some x) ∧
    (∀ k, k ∉ keys → values !! k = None).
Proof.
  eexists. split; [by vm_compute|].
  apply (getitem_row_agrees_with_columns two_rows 1). by vm_compute.
Defined.

Lemma array_index_is_Some {X} (array : list X) (i : Z) :
  is_Some (array_index array i)
  ↔ (- Z.of_nat (length array) ≤ i < Z.of_nat (length array))%Z.
Proof.
  unfold array_index. case_decide as Hpos.
  - rewrite lookup_lt_is_Some. lia.
  - case_decide as Hneg.
    + rewrite lookup_lt_is_Some. lia.
    + split; [by intros [? ?]|lia].
Qed.

Lemma row_is_Some {X} (self : gmap string (list X)) (n : nat) ks i : ∀ values,
  (∀ k, k ∈ ks → ∃ array, self !! k = Some array ∧ length array = n) →
  ks ≠ [] →
  (∃ values', row self ks i values = inr values')
  ↔ (- Z.of_nat n ≤ i < Z.of_nat n)%Z.
Proof.
  induction ks as [|k0 rest IH]; intros values Hall Hne; [done|].
  destruct (Hall k0 ltac:(by left)) as (array & Hk0 & Hlen).
  cbn [row]. unfold column. rewrite Hk0.
  pose proof (array_index_is_Some array i) as Hi. rewrite Hlen in Hi.
  destruct (array_index array i) as [x|].
  - destruct rest as [|k1 rest'].
    + cbn. split; [intros _; apply Hi; by eexists|by eexists].
    + apply IH; [|done]. intros k Hk. apply Hall. by right.
  - split; [by intros [? ?]|]. intros Hb. apply Hi in Hb as [? ?]. done.
Qed.

(** X16.  For a table whose columns all have [n] elements, [self[i]]
    returns a row exactly when [-n <= i < n]; any other int raises. *)
Theorem getitem_row_bounds {X} (self : gmap string (list X)) (n : nat) (i : Z) :
  tabular self n →
  (∃ values, __getitem__ self (KInt i) = inr (Values values))
  ↔ (- Z.of_nat n ≤ i < Z.of_nat n)%Z.
Proof.
  intros Htab. rewrite <- (row_is_Some self n keys i ∅ Htab ltac:(done)).
  cbn [__getitem__]. destruct (row self keys i ∅) as [e|values].
  - split; intros [? ?]; done.
  - split; intros _; by eexists.
Qed.

Lemma tabular_two_rows : tabular two_rows 2.
Proof.
  intros k Hk. exists [10; 20]%Z. split; [|done].
  apply lookup_gset_to_gmap_Some. split; [|done]. by apply elem_of_list_to_set.
Qed.

Lemma getitem_row_bounds_two_rows :
  (∃ values, __getitem__ two_rows (KInt (-2)) = inr (Values values))
  ↔ (- Z.of_nat 2 ≤ -2 < Z.of_nat 2)%Z.
Proof. apply (getitem_row_bounds two_rows 2 (-2)). apply tabular_two_rows. Defined.

(** * Properties of the name of a plot file *)

Lemma substring_all (t : string) :
  String.substring 0 (String.length t) t = t.
Proof. induction t as [|b t IHt]; [done|]. simpl. by rewrite IHt. Qed.

Lemma substring_skip (s t : string) :
  String.substring (String.length s) (String.length t) (String.append s t) = t.
Proof. induction s as [|a s IH]; simpl; [apply substring_all|done]. Qed.

Lemma length_append (s t : string) :
  String.length (String.append s t) = String.length s + String.length t.
Proof. induction s as [|a s IH]; simpl; [done|]. by f_equal. Qed.

Lemma endswith_append (s t : string) : endswith (String.append s t) t = true.
Proof.
  unfold endswith. rewrite length_append.
  replace (String.length s + String.length t - String.length t)
    with (String.length s) by lia.
  rewrite substring_skip, String.eqb_refl, andb_true_r.
  apply Nat.leb_le. lia.
Qed.

(** X17.  The name a [Plotter] keeps always ends in [.pdf]; it is the
    name given, or the name given followed by [.pdf]; and a name the
    constructor has produced is kept as it is by the constructor. *)
Theorem Plotter_name_pdf (name : string) :
  endswith (Plotter_name name) ".pdf" = true ∧
  (Plotter_name name = name ∨ Plotter_name name = String.append name ".pdf") ∧
  Plotter_name (Plotter_name name) = Plotter_name name.
Proof.
  unfold Plotter_name. destruct (endswith name ".pdf") eqn:Hends; cbn [negb].
  - rewrite Hends. cbn [negb]. split_and!; [done|by left|done].
  - rewrite endswith_append. cbn [negb]. split_and!; [done|by right|done].
Qed.
